(** * vms::core thread workers: Thread, TimedThread, HiResTimedThread

    A shallow embedding of [src/thread_base.cpp] (class [Thread]) and of the
    worker classes built on it ([TimedThread], [HiResTimedThread]), followed
    by the properties of the life cycle, of the hook sequence of the worker
    loop and of the pacing arithmetic.

    Conventions of the embedding:
    - a [std::thread] handle is [option ThreadId]: [Some id] owns a thread of
      execution (joinable), [None] is the empty handle (default constructed,
      moved from or joined);
    - [std::atomic<bool> stop_flag_] is a [bool] field; the accesses of other
      threads are the environment steps of the loop machine below;
    - [state_mutex_] makes the body of [start] and the locked part of
      [stop] atomic, so each is one function on the [Thread] members; the
      join of [stop] comes after the lock is released: a [Join] in the
      effect log says that the caller goes on to join that thread, not that
      the thread has ended;
    - [std::chrono::microseconds] and [steady_clock::time_point] are signed
      64-bit tick counts, embedded as [Z]; the clock ticks in nanoseconds
      (the steady clock of the Linux toolchains the sources target), so
      adding a microsecond duration to a time point scales it by 1000 (a
      period is below 2^31 microseconds, so the scaling stays in range) and
      the sum is taken in 64 bits: [time_point_add] wraps it around;
    - the platform calls a method makes (thread creation, join, sleeps) are
      appended to an effect log. *)

From stdpp Require Import base tactics option list relations.
From Stdlib Require Import ZArith Lia Bool.

(** ** Platform *)

Definition ThreadId := nat.

(** Count of a [std::chrono::microseconds]. *)
Definition microseconds := Z.

(** Ticks of [std::chrono::steady_clock] since its epoch;
    [Clock::time_point{}] is tick 0. *)
Definition time_point := Z.

Definition time_point_zero : time_point := 0%Z.

(** Conversion of a microsecond duration to the duration type of the clock,
    as done by [time_point + microseconds] and [time_point += microseconds]. *)
Definition to_ticks (d : microseconds) : Z := (1000 * d)%Z.

(** The range of the [int32_t] constructor arguments. *)
Definition int32 (z : Z) : Prop := (- 2 ^ 31 <= z < 2 ^ 31)%Z.

(** The range of the 64-bit tick counts. *)
Definition int64 (z : Z) : Prop := (- 2 ^ 63 <= z < 2 ^ 63)%Z.

(** [time_point + duration] and [time_point += duration] on the 64-bit
    count of the clock. The durations added in this code are never
    negative, so a sum leaves the range only past [2^63 - 1], where the
    count wraps around to the negative end. *)
Definition time_point_add (tp : time_point) (d : Z) : time_point :=
  let s := (tp + d)%Z in
  if (2 ^ 63 <=? s)%Z then (s - 2 ^ 64)%Z else s.

Inductive Effect : Type :=
| Spawn (id : ThreadId)          (* std::thread(&Thread::loop, this) succeeded *)
| Join (id : ThreadId)           (* std::thread::join *)
| Detach (id : ThreadId)         (* std::thread::detach *)
| SleepFor (d : microseconds)    (* std::this_thread::sleep_for *)
| SleepUntil (tp : time_point).  (* std::this_thread::sleep_until *)

(** The platform as the executing thread sees it. *)
Record Platform : Type := mkPlatform {
  this_thread : ThreadId;        (* std::this_thread::get_id() *)
  steady_now : time_point;       (* Clock::now() *)
  effects : list Effect
}.

Arguments mkPlatform _%_nat _%_Z _.

Definition log (e : list Effect) (p : Platform) : Platform :=
  {| this_thread := this_thread p; steady_now := steady_now p;
     effects := effects p ++ e |}.

(** [sleep_for d] returns no earlier than [d] after the call. *)
Definition sleep_for (d : microseconds) (p : Platform) : Platform :=
  {| this_thread := this_thread p;
     steady_now := (steady_now p + to_ticks d)%Z;
     effects := effects p ++ [SleepFor d] |}.

(** [sleep_until tp] returns once the clock has reached [tp]. *)
Definition sleep_until (tp : time_point) (p : Platform) : Platform :=
  {| this_thread := this_thread p;
     steady_now := Z.max (steady_now p) tp;
     effects := effects p ++ [SleepUntil tp] |}.

(** ** Class Thread: members *)

Definition Handle := option ThreadId.

Definition joinable (h : Handle) : bool :=
  match h with Some _ => true | None => false end.

Record Thread : Type := mkThread {
  thread_ : Handle;
  stop_flag_ : bool
}.

Definition set_thread (h : Handle) (t : Thread) : Thread :=
  {| thread_ := h; stop_flag_ := stop_flag_ t |}.

Definition store_stop_flag (b : bool) (t : Thread) : Thread :=
  {| thread_ := thread_ t; stop_flag_ := b |}.

(** How a call ends: it returns a value or an exception leaves it. *)
Inductive Outcome (A : Type) : Type :=
| Returned (a : A)
| Thrown.

Arguments Returned {A} a.
Arguments Thrown {A}.

(** How the destruction of the [std::thread] member ends. *)
Inductive Destruction : Type :=
| HandleReleased   (* the handle was empty: its destructor does nothing *)
| Terminates.      (* the handle was joinable: std::terminate *)

(** An object of a class derived from [Thread]: the base members, the
    members [F] the derived classes add, and the platform on which the
    thread executing a method of the object runs. *)
Record Worker (F : Type) : Type := mkWorker {
  base : Thread;
  fields : F;
  os : Platform
}.

Arguments mkWorker {F} _ _ _.
Arguments base {F} _.
Arguments fields {F} _.
Arguments os {F} _.

Definition set_base {F} (b : Thread) (w : Worker F) : Worker F :=
  {| base := b; fields := fields w; os := os w |}.

Definition set_fields {F G} (f : G) (w : Worker F) : Worker G :=
  {| base := base w; fields := f; os := os w |}.

Definition set_os {F} (p : Platform) (w : Worker F) : Worker F :=
  {| base := base w; fields := fields w; os := p |}.

(** The five virtual functions of [Thread], as a derived class fixes them. *)
Record Hooks (F : Type) : Type := mkHooks {
  init : Worker F -> bool * Worker F;
  uninit : Worker F -> Worker F;
  pre_run : Worker F -> Worker F;
  run : Worker F -> Worker F;
  post_run : Worker F -> Worker F
}.

Arguments mkHooks {F} _ _ _ _ _.
Arguments init {F} _ _.
Arguments uninit {F} _ _.
Arguments pre_run {F} _ _.
Arguments run {F} _ _.
Arguments post_run {F} _ _.

(** ** The worker loop as a machine

    [Thread::loop] runs on the worker thread while other threads call
    [start] and [stop] on the same object, so it is embedded as a machine
    with one step per hook call or flag load; the other threads act between
    two steps. *)

Inductive Pc : Type :=
| AtInit       (* about to call init() *)
| AtCheck      (* about to load stop_flag_ in the while condition *)
| AtPreRun
| AtRun
| AtPostRun
| AtUninit     (* left the while loop, about to call uninit() *)
| Exited.      (* loop() has returned: the thread has finished *)

Inductive HookCall : Type :=
| CallInit (ok : bool)
| CallPreRun
| CallRun
| CallPostRun
| CallUninit.

Record Config (F : Type) : Type := mkConfig {
  pc : Pc;
  obj : Worker F;
  calls : list HookCall      (* hook calls made so far by this thread *)
}.

Arguments mkConfig {F} _ _ _.
Arguments pc {F} _.
Arguments obj {F} _.
Arguments calls {F} _.

Module Thread.

(** [Thread::Thread()] *)
Definition ctor : Thread := {| thread_ := None; stop_flag_ := true |}.

(** [Thread::start()]. [created] is what [std::thread(&Thread::loop, this)]
    does: [Some id] when the platform creates the thread, [None] when the
    constructor throws. *)
Definition start (created : option ThreadId) (t : Thread)
  : Outcome bool * Thread * list Effect :=
  if joinable (thread_ t) then (Returned false, t, [])
  else
    let t := store_stop_flag false t in
    match created with
    | Some id => (Returned true, set_thread (Some id) t, [Spawn id])
    | None => (Thrown, store_stop_flag true t, [])
    end.

(** [Thread::stop(bool wait_join)], called by thread [caller]. The result
    is the state of the members when the lock is released; [Join id] is the
    join the caller then makes on the handle it moved out. *)
Definition stop (caller : ThreadId) (wait_join : bool) (t : Thread)
  : Thread * list Effect :=
  let join_handle : Handle := None in
  let should_join := wait_join in
  let t := store_stop_flag true t in
  if negb (joinable (thread_ t)) then (t, [])
  else
    let should_join :=
      if decide (thread_ t = Some caller) then false else should_join in
    let '(join_handle, t) :=
      if should_join then (thread_ t, set_thread None t)
      else (join_handle, t) in
    match join_handle with
    | Some id => if should_join then (t, [Join id]) else (t, [])
    | None => (t, [])
    end.

(** [stop] called from a method running on the object's own platform
    thread (a hook calling [stop(wait_join)]). *)
Definition stop_here {F} (wait_join : bool) (w : Worker F) : Worker F :=
  let '(b, e) := stop (this_thread (os w)) wait_join (base w) in
  {| base := b; fields := fields w; os := log e (os w) |}.

(** One step of [Thread::loop()] on the worker thread. *)
Definition loop_step {F} (H : Hooks F) (c : Config F) : option (Config F) :=
  match pc c with
  | AtInit =>
      let '(ok, w) := init H (obj c) in
      if negb ok
      then Some (mkConfig Exited (set_base (store_stop_flag true (base w)) w)
                          (calls c ++ [CallInit false]))
      else Some (mkConfig AtCheck w (calls c ++ [CallInit true]))
  | AtCheck =>
      if negb (stop_flag_ (base (obj c)))
      then Some (mkConfig AtPreRun (obj c) (calls c))
      else Some (mkConfig AtUninit (obj c) (calls c))
  | AtPreRun =>
      Some (mkConfig AtRun (pre_run H (obj c)) (calls c ++ [CallPreRun]))
  | AtRun =>
      Some (mkConfig AtPostRun (run H (obj c)) (calls c ++ [CallRun]))
  | AtPostRun =>
      Some (mkConfig AtCheck (post_run H (obj c)) (calls c ++ [CallPostRun]))
  | AtUninit =>
      Some (mkConfig Exited (uninit H (obj c)) (calls c ++ [CallUninit]))
  | Exited => None
  end.

(** The worker thread alone, for at most [fuel] steps. *)
Fixpoint loop {F} (H : Hooks F) (fuel : nat) (c : Config F) : Config F :=
  match fuel with
  | O => c
  | S fuel =>
      match loop_step H c with
      | Some c' => loop H fuel c'
      | None => c
      end
  end.

(** The default hooks. *)
Definition init {F} (w : Worker F) : bool * Worker F := (true, w).
Definition uninit {F} (w : Worker F) : Worker F := w.
Definition pre_run {F} (w : Worker F) : Worker F := w.
Definition post_run {F} (w : Worker F) : Worker F := w.

(** A class that derives from [Thread] and overrides [run] only. *)
Definition hooks {F} (run : Worker F -> Worker F) : Hooks F :=
  mkHooks init uninit pre_run run post_run.

(** [Thread::~Thread()], run by thread [caller]: the body is [stop(true)],
    then the members are destroyed; the destructor of a [std::thread] that
    is still joinable calls [std::terminate]. This is the part of the
    destruction that [Thread] itself decides. It says nothing of a worker
    thread that is still inside the loop when the destruction begins: by the
    time [~Thread()] runs the derived part of the object is gone and the
    hooks the loop dispatches are those of [Thread], where [run] is pure. *)
Definition dtor (caller : ThreadId) (t : Thread) : Destruction * list Effect :=
  let '(t, e) := stop caller true t in
  (if joinable (thread_ t) then Terminates else HandleReleased, e).

End Thread.

(** A new thread of execution entering [Thread::loop] on the object. *)
Definition entry {F} (id : ThreadId) (w : Worker F) : Config F :=
  mkConfig AtInit
           (set_os {| this_thread := id; steady_now := steady_now (os w);
                      effects := effects (os w) |} w)
           [].

Arguments entry {F} _%_nat _.

Section Machine.

Context {F : Type}.
Variable H : Hooks F.

(** What the other threads (and the passing of time) may do to the object
    and the platform between two steps of the worker thread. *)
Variable env : relation (Worker F).

Inductive step : relation (Config F) :=
| step_worker c c' :
    Thread.loop_step H c = Some c' -> step c c'
| step_env c w' :
    env (obj c) w' -> step c (mkConfig (pc c) w' (calls c)).

(** The configurations met over the life of an object constructed as [w0]:
    a first successful [start], the steps of the thread it spawned, and each
    further successful [start]. [start] asks nothing but an empty handle,
    and the [stop(true)] of another thread (an environment step) empties
    the handle before it joins, outside the lock: so a further [start] can
    come while the thread spawned before is still inside the loop. The
    configuration then follows the thread spawned last; what the earlier
    thread still does to the object is part of the environment. *)
Inductive lifetime (w0 : Worker F) : Config F -> Prop :=
| life_first w id b e :
    rtc env w0 w ->
    Thread.start (Some id) (base w) = (Returned true, b, e) ->
    lifetime w0 (entry id (set_base b w))
| life_step c c' :
    lifetime w0 c -> step c c' -> lifetime w0 c'
| life_restart c id b e :
    lifetime w0 c ->
    Thread.start (Some id) (base (obj c)) = (Returned true, b, e) ->
    lifetime w0 (entry id (set_base b (obj c))).

(** The lives in which no [start] overlaps a running thread: a further
    [start] comes only once the thread spawned before has returned from
    the loop, so that at most one thread runs the loop at any time. *)
Inductive sequential (w0 : Worker F) : Config F -> Prop :=
| seq_first w id b e :
    rtc env w0 w ->
    Thread.start (Some id) (base w) = (Returned true, b, e) ->
    sequential w0 (entry id (set_base b w))
| seq_step c c' :
    sequential w0 c -> step c c' -> sequential w0 c'
| seq_restart c id b e :
    sequential w0 c -> pc c = Exited ->
    Thread.start (Some id) (base (obj c)) = (Returned true, b, e) ->
    sequential w0 (entry id (set_base b (obj c))).

(** What a logged call does to the object: the hook applied, and for a
    failed [init] the store of the stop flag that follows it. *)
Definition apply_call (a : HookCall) (w : Worker F) : Worker F :=
  match a with
  | CallInit ok =>
      let w' := (init H w).2 in
      if ok then w' else set_base (store_stop_flag true (base w')) w'
  | CallPreRun => pre_run H w
  | CallRun => run H w
  | CallPostRun => post_run H w
  | CallUninit => uninit H w
  end.

(** The result logged with a call is the one the hook gave. *)
Definition call_result (a : HookCall) (w : Worker F) : Prop :=
  match a with
  | CallInit ok => (init H w).1 = ok
  | _ => True
  end.

(** [replayed w0 l w]: the object [w] is what becomes of [w0] when the hooks
    of the calls [l] are applied to it in this order, with steps of the
    environment before, between and after them. *)
Inductive replayed (w0 : Worker F) : list HookCall -> Worker F -> Prop :=
| replayed_nil : replayed w0 [] w0
| replayed_env l w w' :
    replayed w0 l w -> env w w' -> replayed w0 l w'
| replayed_call l a w :
    replayed w0 l w -> call_result a w ->
    replayed w0 (l ++ [a]) (apply_call a w).

(** One iteration of the loop body. *)
Definition body (w : Worker F) : Worker F :=
  post_run H (run H (pre_run H w)).

End Machine.

(** The [pre_run; run; post_run] calls of [n] iterations. *)
Fixpoint iterations (n : nat) : list HookCall :=
  match n with
  | O => []
  | S n => CallPreRun :: CallRun :: CallPostRun :: iterations n
  end.

Definition HookCall_eqb (a b : HookCall) : bool :=
  match a, b with
  | CallInit x, CallInit y => Bool.eqb x y
  | CallPreRun, CallPreRun | CallRun, CallRun
  | CallPostRun, CallPostRun | CallUninit, CallUninit => true
  | _, _ => false
  end.

Definition is_init (a : HookCall) : bool :=
  match a with CallInit _ => true | _ => false end.

Fixpoint count (p : HookCall -> bool) (l : list HookCall) : nat :=
  match l with
  | [] => 0
  | a :: l => (if p a then 1 else 0) + count p l
  end.

(** The states of the [Thread] members over the life of an object: as
    constructed, then after calls of [start] and [stop] by any threads and
    after the store the loop makes when [init] fails. *)
Inductive reachable : Thread -> Prop :=
| reach_ctor : reachable Thread.ctor
| reach_start t created :
    reachable t -> reachable (Thread.start created t).1.2
| reach_stop t caller wait_join :
    reachable t -> reachable (Thread.stop caller wait_join t).1
| reach_init_failed t :
    reachable t -> reachable (store_stop_flag true t).

(** ** Timed workers *)

(** [make_non_negative_duration] *)
Definition make_non_negative_duration (microseconds_ : Z) : microseconds :=
  if (microseconds_ <? 0)%Z then 0%Z else microseconds_.

(** Members of [TimedThread]; [timed_derived] holds the members of the
    classes deriving from it. *)
Record TimedThread (U : Type) : Type := mkTimedThread {
  sleep_duration_ : microseconds;
  timed_derived : U
}.

Arguments mkTimedThread {U} _ _.
Arguments sleep_duration_ {U} _.
Arguments timed_derived {U} _.

Module TimedThread.

(** [TimedThread::TimedThread(int32_t micro_sec)] *)
Definition ctor {U} (micro_sec : Z) (u : U) (p : Platform)
  : Worker (TimedThread U) :=
  {| base := Thread.ctor;
     fields := {| sleep_duration_ := make_non_negative_duration micro_sec;
                  timed_derived := u |};
     os := p |}.

(** [TimedThread::pre_run()] *)
Definition pre_run {U} (w : Worker (TimedThread U)) : Worker (TimedThread U) :=
  if (sleep_duration_ (fields w) >? 0)%Z
  then set_os (sleep_for (sleep_duration_ (fields w)) (os w)) w
  else w.

(** A method of a derived class: it acts on the base through its public
    functions, on the platform and on the derived members, not on the
    private [sleep_duration_]. *)
Definition derived {U A} (f : Worker U -> A * Worker U)
  (w : Worker (TimedThread U)) : A * Worker (TimedThread U) :=
  let '(a, w') := f (set_fields (timed_derived (fields w)) w) in
  (a, set_fields {| sleep_duration_ := sleep_duration_ (fields w);
                    timed_derived := fields w' |} w').

(** The virtual functions of a class deriving from [TimedThread] that
    overrides [run]: [TimedThread] itself overrides [pre_run] only. *)
Definition hooks {U} (run : Worker U -> Worker U) : Hooks (TimedThread U) :=
  mkHooks Thread.init Thread.uninit pre_run
          (fun w => snd (derived (fun v => (tt, run v)) w))
          Thread.post_run.

End TimedThread.

(** Members of [HiResTimedThread]. *)
Record HiResTimedThread (U : Type) : Type := mkHiResTimedThread {
  loop_interval_ : microseconds;
  next_deadline_ : time_point;
  first_iteration_ : bool;
  hires_derived : U
}.

Arguments mkHiResTimedThread {U} _ _ _ _.
Arguments loop_interval_ {U} _.
Arguments next_deadline_ {U} _.
Arguments first_iteration_ {U} _.
Arguments hires_derived {U} _.

Module HiResTimedThread.

(** [HiResTimedThread::HiResTimedThread(int32_t micro_sec)] *)
Definition ctor {U} (micro_sec : Z) (u : U) (p : Platform)
  : Worker (HiResTimedThread U) :=
  {| base := Thread.ctor;
     fields := {| loop_interval_ := make_non_negative_duration micro_sec;
                  next_deadline_ := time_point_zero;
                  first_iteration_ := true;
                  hires_derived := u |};
     os := p |}.

Definition set_next_deadline {U} (tp : time_point)
  (w : Worker (HiResTimedThread U)) : Worker (HiResTimedThread U) :=
  set_fields {| loop_interval_ := loop_interval_ (fields w);
                next_deadline_ := tp;
                first_iteration_ := first_iteration_ (fields w);
                hires_derived := hires_derived (fields w) |} w.

Definition set_first_iteration {U} (b : bool)
  (w : Worker (HiResTimedThread U)) : Worker (HiResTimedThread U) :=
  set_fields {| loop_interval_ := loop_interval_ (fields w);
                next_deadline_ := next_deadline_ (fields w);
                first_iteration_ := b;
                hires_derived := hires_derived (fields w) |} w.

(** [HiResTimedThread::pre_run()] *)
Definition pre_run {U} (w : Worker (HiResTimedThread U))
  : Worker (HiResTimedThread U) :=
  if (loop_interval_ (fields w) =? 0)%Z then w
  else if first_iteration_ (fields w) then
    let w :=
      set_next_deadline
        (time_point_add (steady_now (os w))
                        (to_ticks (loop_interval_ (fields w)))) w in
    set_first_iteration false w
  else w.

(** [HiResTimedThread::post_run()] *)
Definition post_run {U} (w : Worker (HiResTimedThread U))
  : Worker (HiResTimedThread U) :=
  if (loop_interval_ (fields w) =? 0)%Z then w
  else
    let now := steady_now (os w) in
    if (now <? next_deadline_ (fields w))%Z then
      let w := set_os (sleep_until (next_deadline_ (fields w)) (os w)) w in
      set_next_deadline
        (time_point_add (next_deadline_ (fields w))
                        (to_ticks (loop_interval_ (fields w)))) w
    else
      set_next_deadline
        (time_point_add now (to_ticks (loop_interval_ (fields w)))) w.

(** [HiResTimedThread::uninit()] *)
Definition uninit {U} (w : Worker (HiResTimedThread U))
  : Worker (HiResTimedThread U) :=
  let w := set_first_iteration true w in
  let w := set_next_deadline time_point_zero w in
  Thread.uninit w.

(** A method of a derived class: the timing members are private to
    [HiResTimedThread]. *)
Definition derived {U A} (f : Worker U -> A * Worker U)
  (w : Worker (HiResTimedThread U)) : A * Worker (HiResTimedThread U) :=
  let '(a, w') := f (set_fields (hires_derived (fields w)) w) in
  (a, set_fields {| loop_interval_ := loop_interval_ (fields w);
                    next_deadline_ := next_deadline_ (fields w);
                    first_iteration_ := first_iteration_ (fields w);
                    hires_derived := fields w' |} w').

(** The virtual functions of a class deriving from [HiResTimedThread] with
    its own [init] and [run]. *)
Definition hooks {U} (init : Worker U -> bool * Worker U)
  (run : Worker U -> Worker U) : Hooks (HiResTimedThread U) :=
  mkHooks (derived init) uninit pre_run
          (fun w => snd (derived (fun v => (tt, run v)) w))
          post_run.

(** [first_iteration_] is set and [next_deadline_] is the default
    constructed time point. *)
Definition unarmed {U} (w : Worker (HiResTimedThread U)) : Prop :=
  first_iteration_ (fields w) = true /\
  next_deadline_ (fields w) = time_point_zero.

(** The private timing members. *)
Definition timing {U} (w : Worker (HiResTimedThread U))
  : microseconds * time_point * bool :=
  (loop_interval_ (fields w), next_deadline_ (fields w),
   first_iteration_ (fields w)).

End HiResTimedThread.

(** ** Workers of the test suite ([tests/thread_tests.cpp]) *)

(** [std::atomic<int>::fetch_add(1)]: the counter wraps at 32 bits. *)
Definition int_incr (z : Z) : Z :=
  ((z + 1 + 2 ^ 31) mod 2 ^ 32 - 2 ^ 31)%Z.

Record FailingInitThread : Type := mkFailingInitThread {
  init_called_ : bool;
  run_called_ : bool
}.

Module FailingInitThread.

Definition ctor (p : Platform) : Worker FailingInitThread :=
  {| base := Thread.ctor;
     fields := {| init_called_ := false; run_called_ := false |};
     os := p |}.

Definition init (w : Worker FailingInitThread)
  : bool * Worker FailingInitThread :=
  (false, set_fields {| init_called_ := true;
                        run_called_ := run_called_ (fields w) |} w).

Definition run (w : Worker FailingInitThread) : Worker FailingInitThread :=
  set_fields {| init_called_ := init_called_ (fields w);
                run_called_ := true |} w.

Definition hooks : Hooks FailingInitThread :=
  mkHooks init Thread.uninit Thread.pre_run run Thread.post_run.

End FailingInitThread.

Record LifecycleThread : Type := mkLifecycleThread {
  target_iterations_ : Z;
  init_calls_ : Z;
  uninit_calls_ : Z;
  pre_calls_ : Z;
  post_calls_ : Z;
  run_calls_ : Z
}.

Module LifecycleThread.

Definition ctor (target_iterations : Z) (p : Platform)
  : Worker LifecycleThread :=
  {| base := Thread.ctor;
     fields := mkLifecycleThread target_iterations 0%Z 0%Z 0%Z 0%Z 0%Z;
     os := p |}.

Definition init (w : Worker LifecycleThread) : bool * Worker LifecycleThread :=
  let f := fields w in
  (true, set_fields (mkLifecycleThread (target_iterations_ f)
                       (int_incr (init_calls_ f)) (uninit_calls_ f)
                       (pre_calls_ f) (post_calls_ f) (run_calls_ f)) w).

Definition uninit (w : Worker LifecycleThread) : Worker LifecycleThread :=
  let f := fields w in
  set_fields (mkLifecycleThread (target_iterations_ f)
                (init_calls_ f) (int_incr (uninit_calls_ f))
                (pre_calls_ f) (post_calls_ f) (run_calls_ f)) w.

Definition pre_run (w : Worker LifecycleThread) : Worker LifecycleThread :=
  let f := fields w in
  set_fields (mkLifecycleThread (target_iterations_ f)
                (init_calls_ f) (uninit_calls_ f)
                (int_incr (pre_calls_ f)) (post_calls_ f) (run_calls_ f)) w.

Definition run (w : Worker LifecycleThread) : Worker LifecycleThread :=
  let f := fields w in
  let w :=
    set_fields (mkLifecycleThread (target_iterations_ f)
                  (init_calls_ f) (uninit_calls_ f)
                  (pre_calls_ f) (post_calls_ f) (int_incr (run_calls_ f))) w in
  let w := set_os (sleep_for 1000%Z (os w)) w in
  if (run_calls_ (fields w) >=? target_iterations_ (fields w))%Z
  then Thread.stop_here false w
  else w.

Definition post_run (w : Worker LifecycleThread) : Worker LifecycleThread :=
  let f := fields w in
  set_fields (mkLifecycleThread (target_iterations_ f)
                (init_calls_ f) (uninit_calls_ f)
                (pre_calls_ f) (int_incr (post_calls_ f)) (run_calls_ f)) w.

Definition hooks : Hooks LifecycleThread :=
  mkHooks init uninit pre_run run post_run.

End LifecycleThread.

Record RecordingHiResThread : Type := mkRecordingHiResThread {
  hr_target_iterations_ : nat;
  hr_timestamps_ : list time_point;
  hr_done_ : bool
}.

Module RecordingHiResThread.

Definition run (w : Worker RecordingHiResThread)
  : Worker RecordingHiResThread :=
  let f := fields w in
  let w :=
    set_fields (mkRecordingHiResThread (hr_target_iterations_ f)
                  (hr_timestamps_ f ++ [steady_now (os w)]) (hr_done_ f)) w in
  let w := set_os (sleep_for 500%Z (os w)) w in
  if (hr_target_iterations_ (fields w) <=? length (hr_timestamps_ (fields w)))%nat
  then
    let f := fields w in
    let w :=
      set_fields (mkRecordingHiResThread (hr_target_iterations_ f)
                    (hr_timestamps_ f) true) w in
    Thread.stop_here false w
  else w.

Definition ctor (microseconds_ : Z) (target_iterations : nat) (p : Platform)
  : Worker (HiResTimedThread RecordingHiResThread) :=
  HiResTimedThread.ctor microseconds_
    (mkRecordingHiResThread target_iterations [] false) p.

Definition hooks : Hooks (HiResTimedThread RecordingHiResThread) :=
  HiResTimedThread.hooks Thread.init run.

End RecordingHiResThread.

(** Environments used to exercise the machine: no interference, and the
    steady clock moving forward by any amount. *)
Definition quiet {F} : relation (Worker F) := eq.

Definition time_passes {F} : relation (Worker F) :=
  fun w w' =>
    base w' = base w /\ fields w' = fields w /\
    this_thread (os w') = this_thread (os w) /\
    effects (os w') = effects (os w) /\
    (steady_now (os w) <= steady_now (os w'))%Z.

(** Another thread calls [stop(wait_join)] on the object. *)
Definition stopped_by {F} (caller : ThreadId) (wait_join : bool)
  : relation (Worker F) :=
  fun w w' => w' = set_base (Thread.stop caller wait_join (base w)).1 w.

Definition controller {F} : relation (Worker F) :=
  fun w w' =>
    time_passes w w' \/
    exists caller wait_join,
      caller <> this_thread (os w) /\ stopped_by caller wait_join w w'.

(** The timing members of a [HiResTimedThread] are private and accessed by
    the worker thread only: the other threads leave them alone. *)
Definition keeps_timing {U} (env : relation (Worker (HiResTimedThread U)))
  : Prop :=
  forall w w', env w w' ->
    HiResTimedThread.timing w' = HiResTimedThread.timing w.

(** ** Sequences of calls of the public functions *)

Inductive ApiCall : Type :=
| DoStart (created : option ThreadId)
| DoStop (caller : ThreadId) (wait_join : bool).

Definition api_call (a : ApiCall) (t : Thread) : Thread * list Effect :=
  match a with
  | DoStart created =>
      let r := Thread.start created t in (r.1.2, r.2)
  | DoStop caller wait_join => Thread.stop caller wait_join t
  end.

(** The calls of [l] one after the other, with the platform calls they made. *)
Fixpoint api_calls (l : list ApiCall) (t : Thread) : Thread * list Effect :=
  match l with
  | [] => (t, [])
  | a :: l =>
      let '(t1, e1) := api_call a t in
      let '(t2, e2) := api_calls l t1 in
      (t2, e1 ++ e2)
  end.

(** Replays thread creations and joins against a handle: a creation needs
    an empty handle, a join the handle of that very thread; anything else
    is refused. Gives the handle left at the end. *)
Fixpoint outstanding (h : Handle) (e : list Effect) : option Handle :=
  match e with
  | [] => Some h
  | Spawn id :: e =>
      match h with
      | None => outstanding (Some id) e
      | Some _ => None
      end
  | Join id :: e =>
      match h with
      | Some id' => if decide (id = id') then outstanding None e else None
      | None => None
      end
  | _ :: _ => None
  end.

(** ** More of the loop machine *)

(** The calls the loop still makes from a program point once it finds the
    stop flag set at its next check. *)
Definition remaining (p : Pc) : list HookCall :=
  match p with
  | AtInit => []
  | AtCheck | AtUninit => [CallUninit]
  | AtPreRun => [CallPreRun; CallRun; CallPostRun; CallUninit]
  | AtRun => [CallRun; CallPostRun; CallUninit]
  | AtPostRun => [CallPostRun; CallUninit]
  | Exited => []
  end.

(** The hooks of the loop body leave a set (resp. clear) stop flag as it is. *)
Definition body_keeps_flag {F} (H : Hooks F) (b : bool) : Prop :=
  forall v, stop_flag_ (base v) = b ->
    stop_flag_ (base (pre_run H v)) = b /\
    stop_flag_ (base (run H v)) = b /\
    stop_flag_ (base (post_run H v)) = b.

Definition env_keeps_flag {F} (env : relation (Worker F)) (b : bool) : Prop :=
  forall w w', env w w' -> stop_flag_ (base w) = b -> stop_flag_ (base w') = b.

(** The steady clock does not go back. *)
Definition clock_monotone {F} (env : relation (Worker F)) : Prop :=
  forall w w', env w w' -> (steady_now (os w) <= steady_now (os w'))%Z.

(** ** [RecordingTimedThread] of the test suite *)

Record RecordingTimedThread : Type := mkRecordingTimedThread {
  tt_target_iterations_ : nat;
  tt_timestamps_ : list time_point;
  tt_done_ : bool
}.

Module RecordingTimedThread.

Definition run (w : Worker RecordingTimedThread) : Worker RecordingTimedThread :=
  let f := fields w in
  let w :=
    set_fields (mkRecordingTimedThread (tt_target_iterations_ f)
                  (tt_timestamps_ f ++ [steady_now (os w)]) (tt_done_ f)) w in
  let w := set_os (sleep_for 200%Z (os w)) w in
  if (tt_target_iterations_ (fields w) <=? length (tt_timestamps_ (fields w)))%nat
  then
    let f := fields w in
    let w :=
      set_fields (mkRecordingTimedThread (tt_target_iterations_ f)
                    (tt_timestamps_ f) true) w in
    Thread.stop_here false w
  else w.

Definition ctor (microseconds_ : Z) (target_iterations : nat) (p : Platform)
  : Worker (TimedThread RecordingTimedThread) :=
  TimedThread.ctor microseconds_
    (mkRecordingTimedThread target_iterations [] false) p.

Definition hooks : Hooks (TimedThread RecordingTimedThread) :=
  TimedThread.hooks run.

Definition timestamps (w : Worker (TimedThread RecordingTimedThread))
  : list time_point :=
  tt_timestamps_ (timed_derived (fields w)).

End RecordingTimedThread.

(** Consecutive time points are at least [gap] ticks apart. *)
Fixpoint gaps_ok (gap : Z) (ts : list time_point) : Prop :=
  match ts with
  | [] => True
  | a :: ts' =>
      match ts' with
      | [] => True
      | b :: _ => (a + gap <= b)%Z /\ gaps_ok gap ts'
      end
  end.

(** ** Successive [post_run] calls *)

(** The platform with the clock read as [t]. *)
Definition at_time {F} (t : time_point) (w : Worker F) : Worker F :=
  set_os {| this_thread := this_thread (os w); steady_now := t;
            effects := effects (os w) |} w.

(** [post_run] called once per clock reading of [readings]. *)
Fixpoint post_runs {U} (readings : list time_point)
  (w : Worker (HiResTimedThread U)) : Worker (HiResTimedThread U) :=
  match readings with
  | [] => w
  | t :: readings => post_runs readings (HiResTimedThread.post_run (at_time t w))
  end.

(** Every reading comes before the deadline in force at its call, where
    the deadline starts at [d] and moves by [P] per call. *)
Fixpoint all_early (d P : Z) (readings : list time_point) : Prop :=
  match readings with
  | [] => True
  | t :: readings => (t < d)%Z /\ all_early (d + P)%Z P readings
  end.

(** The deadlines [d], [d + P], ... of [n] calls. *)
Fixpoint deadlines (d P : Z) (n : nat) : list Effect :=
  match n with
  | O => []
  | S n => SleepUntil d :: deadlines (d + P)%Z P n
  end.

(** ** Invariants of the loop machine *)

(** The calls made so far, by program point. *)
Definition shape (p : Pc) (l : list HookCall) : Prop :=
  match p with
  | AtInit => l = []
  | AtCheck | AtPreRun | AtUninit =>
      exists n, l = CallInit true :: iterations n
  | AtRun =>
      exists n, l = CallInit true :: iterations n ++ [CallPreRun]
  | AtPostRun =>
      exists n, l = CallInit true :: iterations n ++ [CallPreRun; CallRun]
  | Exited =>
      l = [CallInit false] \/
      exists n, l = CallInit true :: iterations n ++ [CallUninit]
  end.


(** Within a run: before the first [pre_run] the object is unarmed, after
    it the first-iteration flag stays clear until the loop is left. *)
Definition armed_inv {U} (period : microseconds)
  (c : Config (HiResTimedThread U)) : Prop :=
  loop_interval_ (fields (obj c)) = period /\
  match pc c with
  | AtInit =>
      HiResTimedThread.unarmed (obj c) /\ ~ In CallPreRun (calls c)
  | AtCheck | AtPreRun | AtUninit =>
      (In CallPreRun (calls c) -> first_iteration_ (fields (obj c)) = false) /\
      (~ In CallPreRun (calls c) -> HiResTimedThread.unarmed (obj c))
  | AtRun | AtPostRun =>
      In CallPreRun (calls c) /\ first_iteration_ (fields (obj c)) = false
  | Exited => True
  end.

(** Once the flag is set and stays set: what has been called since then
    and what is still to be called make up [remaining]. *)
Definition winding_down {F} (c0 c : Config F) : Prop :=
  pc c <> AtInit /\
  (pc c <> AtUninit -> pc c <> Exited -> stop_flag_ (base (obj c)) = true) /\
  exists done,
    calls c = calls c0 ++ done /\ done ++ remaining (pc c) = remaining (pc c0).

(** The platform after [n] calls of [sleep_for] with one millisecond. *)
Fixpoint sleeps (n : nat) (o : Platform) : Platform :=
  match n with
  | O => o
  | S n => sleep_for 1000%Z (sleeps n o)
  end.

(** Within and across runs: the recorded time points keep their distance,
    and the clock is past the last one, by the delay once [pre_run] is
    done. *)
Definition spaced (D : microseconds)
  (c : Config (TimedThread RecordingTimedThread)) : Prop :=
  sleep_duration_ (fields (obj c)) = D /\
  gaps_ok (to_ticks D) (RecordingTimedThread.timestamps (obj c)) /\
  forall l, last (RecordingTimedThread.timestamps (obj c)) = Some l ->
    match pc c with
    | AtRun => (l + to_ticks D <= steady_now (os (obj c)))%Z
    | _ => (l <= steady_now (os (obj c)))%Z
    end.

(** Within one run of a fresh [RecordingTimedThread]: the number of
    recorded time points against the target. *)
Definition within_target (c : Config (TimedThread RecordingTimedThread))
  : Prop :=
  let k := length (RecordingTimedThread.timestamps (obj c)) in
  let m := Nat.max 1 (tt_target_iterations_ (timed_derived (fields (obj c)))) in
  (k <= m)%nat /\
  match pc c with
  | AtPreRun | AtRun => (k < m)%nat
  | _ => stop_flag_ (base (obj c)) = false -> (k < m)%nat
  end.

(** Once the deadline is armed, and until the loop is left, it is at most
    one period ahead of the clock. *)
Definition one_period_ahead {U} (period : microseconds)
  (c : Config (HiResTimedThread U)) : Prop :=
  first_iteration_ (fields (obj c)) = false -> pc c <> Exited ->
  (next_deadline_ (fields (obj c))
   <= steady_now (os (obj c)) + to_ticks period)%Z.

(** Closes a closed arithmetic side condition by evaluation. *)
Ltac evaluate := vm_compute; first [reflexivity | discriminate | lia].

(** * Properties *)

(** ** start and stop *)

Lemma start_joinable t created :
  joinable (thread_ t) = true ->
  Thread.start created t = (Returned false, t, []).
Proof. intros Hj. unfold Thread.start. now rewrite Hj. Qed.

Lemma start_spawns t id :
  thread_ t = None ->
  Thread.start (Some id) t
  = (Returned true, {| thread_ := Some id; stop_flag_ := false |}, [Spawn id]).
Proof. intros Hn. unfold Thread.start. now rewrite Hn. Qed.

Lemma stop_no_thread caller wait_join t :
  thread_ t = None ->
  Thread.stop caller wait_join t
  = ({| thread_ := None; stop_flag_ := true |}, []).
Proof.
  intros Hn. unfold Thread.stop, store_stop_flag. simpl. now rewrite Hn.
Qed.

Lemma stop_own_thread self wait_join t :
  thread_ t = Some self ->
  Thread.stop self wait_join t
  = ({| thread_ := Some self; stop_flag_ := true |}, []).
Proof.
  intros Hs. unfold Thread.stop, store_stop_flag. simpl. rewrite Hs. simpl.
  case_decide as Hd; [reflexivity|]. now destruct Hd.
Qed.

Lemma stop_other_thread caller wait_join id t :
  thread_ t = Some id -> id <> caller ->
  Thread.stop caller wait_join t
  = if wait_join
    then ({| thread_ := None; stop_flag_ := true |}, [Join id])
    else ({| thread_ := Some id; stop_flag_ := true |}, []).
Proof.
  intros Hs Hne. unfold Thread.stop, store_stop_flag. simpl. rewrite Hs. simpl.
  case_decide as Hd.
  - injection Hd as ->. now destruct Hne.
  - now destruct wait_join.
Qed.

Lemma stop_sets_flag caller wait_join t :
  stop_flag_ (Thread.stop caller wait_join t).1 = true.
Proof.
  destruct t as [[id|] flag].
  - destruct (decide (id = caller)) as [->|Hne].
    + now rewrite (stop_own_thread caller wait_join).
    + rewrite (stop_other_thread caller wait_join id) by easy.
      now destruct wait_join.
  - now rewrite stop_no_thread.
Qed.

(** An empty handle goes with a set stop flag in every state of the life
    of an object. *)
Lemma reachable_idle_stopped t :
  reachable t -> thread_ t = None -> stop_flag_ t = true.
Proof.
  induction 1 as [|t created Hr IH|t caller wait_join Hr IH|t Hr IH];
    intros Hn; try reflexivity.
  - unfold Thread.start in *.
    destruct (joinable (thread_ t)) eqn:Hj.
    + simpl in *. auto.
    + destruct created; simpl in *; [discriminate|reflexivity].
  - apply stop_sets_flag.
Qed.

(** C1, as the code has it: [stop(false)] called from a thread other than
    the worker's own while a thread is associated sets the stop flag and
    returns without waiting and without detaching: no platform call is made
    and the handle is left as it was, still joinable. A later [start] is
    therefore refused, and a later [stop(true)] joins that thread. *)
Theorem stop_no_wait_keeps_handle (caller id : ThreadId) (flag : bool) :
  id <> caller ->
  let t := {| thread_ := Some id; stop_flag_ := flag |} in
  let t' := {| thread_ := Some id; stop_flag_ := true |} in
  Thread.stop caller false t = (t', []) /\
  joinable (thread_ (Thread.stop caller false t).1) = true /\
  (forall created, Thread.start created t' = (Returned false, t', [])) /\
  Thread.stop caller true t'
  = ({| thread_ := None; stop_flag_ := true |}, [Join id]).
Proof.
  intros Hne t t'.
  assert (Hstop : Thread.stop caller false t = (t', [])).
  { unfold t. now rewrite (stop_other_thread caller false id). }
  split; [exact Hstop|]. rewrite Hstop. simpl.
  split; [reflexivity|]. split.
  - intros created. now apply start_joinable.
  - unfold t'. now rewrite (stop_other_thread caller true id).
Qed.

Lemma stop_no_wait_keeps_handle_witness :
  Thread.stop 2 false {| thread_ := Some 1; stop_flag_ := false |}
  = ({| thread_ := Some 1; stop_flag_ := true |}, []).
Proof.
  refine (proj1 (stop_no_wait_keeps_handle 2 1 false _)). lia.
Defined.

(** C1, as stated, fails: after [stop(false)] called by thread 2 on an
    object whose handle owns thread 1, the handle is still joinable and no
    detach was made. *)
Lemma stop_no_wait_does_not_detach :
  let r := Thread.stop 2 false {| thread_ := Some 1; stop_flag_ := false |} in
  1 <> 2 /\ joinable (thread_ r.1) <> false /\ ~ In (Detach 1) r.2.
Proof.
  vm_compute. split; [lia|]. split; [discriminate|]. intros [].
Qed.

(** C4: [start] returns false and changes nothing (stop flag, handle, no
    platform call) when the handle is joinable; with an empty handle, and
    the platform creating the thread, it clears the stop flag, spawns the
    thread that executes the loop (it enters [Thread::loop] at [init]) and
    returns true; and after a full stop (a [stop(true)] of another thread,
    which joins the worker and empties the handle) [start] succeeds again. *)
Theorem start_contract (t : Thread) (created : option ThreadId)
  (id caller worker : ThreadId) :
  (joinable (thread_ t) = true ->
   Thread.start created t = (Returned false, t, [])) /\
  (joinable (thread_ t) = false ->
   Thread.start (Some id) t
   = (Returned true, {| thread_ := Some id; stop_flag_ := false |}, [Spawn id])
   /\ forall F (H : Hooks F) (env : relation (Worker F)) (w : Worker F),
        base w = t ->
        lifetime H env w (entry id (set_base (Thread.start (Some id) t).1.2 w))
        /\ pc (entry id (set_base (Thread.start (Some id) t).1.2 w)) = AtInit) /\
  (thread_ t = Some worker -> caller <> worker ->
   Thread.stop caller true t
   = ({| thread_ := None; stop_flag_ := true |}, [Join worker]) /\
   Thread.start (Some id) (Thread.stop caller true t).1
   = (Returned true, {| thread_ := Some id; stop_flag_ := false |}, [Spawn id])).
Proof.
  split; [apply start_joinable|]. split.
  - intros Hj. destruct (thread_ t) eqn:Hn; [discriminate|].
    rewrite (start_spawns t id Hn). split; [reflexivity|].
    intros F H env w Hb. simpl. split; [|reflexivity].
    eapply life_first; [apply rtc_refl|].
    rewrite Hb. now apply start_spawns.
  - intros Hw Hne.
    rewrite (stop_other_thread caller true worker t Hw) by congruence.
    split; [reflexivity|]. now apply start_spawns.
Qed.

Lemma start_contract_witness :
  Thread.start (Some 7) Thread.ctor
  = (Returned true, {| thread_ := Some 7; stop_flag_ := false |}, [Spawn 7])
  /\ Thread.start (Some 8) {| thread_ := Some 7; stop_flag_ := false |}
     = (Returned false, {| thread_ := Some 7; stop_flag_ := false |}, [])
  /\ Thread.start (Some 8)
       (Thread.stop 1 true {| thread_ := Some 7; stop_flag_ := false |}).1
     = (Returned true, {| thread_ := Some 8; stop_flag_ := false |}, [Spawn 8]).
Proof.
  split; [|split].
  - refine (proj1 (proj1 (proj2 (start_contract Thread.ctor None 7 1 1)) _)).
    reflexivity.
  - refine (proj1 (start_contract {| thread_ := Some 7; stop_flag_ := false |}
                     (Some 8) 8 1 7) _).
    reflexivity.
  - refine (proj2 (proj2 (proj2 (start_contract
                     {| thread_ := Some 7; stop_flag_ := false |}
                     None 8 1 7)) _ _)); [reflexivity|lia].
Defined.

(** C6: when [start] is called with an empty handle and the platform fails
    to create the thread, the exception leaves [start] (it is not turned
    into a return value), no thread is spawned, the stop flag is set again,
    and the members are exactly those before the call. *)
Theorem start_creation_failure (t : Thread) :
  reachable t -> joinable (thread_ t) = false ->
  Thread.start None t = (Thrown, t, []) /\
  stop_flag_ (Thread.start None t).1.2 = true.
Proof.
  intros Hr Hj. destruct t as [[id|] flag]; [discriminate|].
  pose proof (reachable_idle_stopped _ Hr eq_refl) as Hf. simpl in Hf.
  subst flag. split; reflexivity.
Qed.

Lemma start_creation_failure_witness :
  Thread.start None (Thread.stop 1 true (Thread.start (Some 7) Thread.ctor).1.2).1
  = (Thrown, {| thread_ := None; stop_flag_ := true |}, []).
Proof.
  refine (proj1 (start_creation_failure
    (Thread.stop 1 true (Thread.start (Some 7) Thread.ctor).1.2).1 _ _)).
  - apply reach_stop, reach_start, reach_ctor.
  - reflexivity.
Defined.

(** ** The hook sequence of the loop *)

Lemma iterations_snoc n :
  iterations n ++ [CallPreRun; CallRun; CallPostRun] = iterations (S n).
Proof.
  induction n as [|n IH]; [reflexivity|].
  change (iterations (S n)) with
    (CallPreRun :: CallRun :: CallPostRun :: iterations n).
  simpl app. now rewrite IH.
Qed.

Lemma count_app p l1 l2 : count p (l1 ++ l2) = count p l1 + count p l2.
Proof. induction l1 as [|a l1 IH]; simpl; [reflexivity|]. rewrite IH. lia. Qed.

Lemma count_iterations p n :
  count p (iterations n)
  = n * ((if p CallPreRun then 1 else 0) + (if p CallRun then 1 else 0)
         + (if p CallPostRun then 1 else 0)).
Proof. induction n as [|n IH]; simpl; [reflexivity|]. rewrite IH. lia. Qed.

Section MachineFacts.

Context {F : Type}.
Variable H : Hooks F.
Variable env : relation (Worker F).

Lemma loop_step_shape c c' :
  Thread.loop_step H c = Some c' ->
  shape (pc c) (calls c) -> shape (pc c') (calls c').
Proof.
  unfold Thread.loop_step. destruct c as [p w l]; simpl.
  destruct p; simpl; intros Hs Hsh.
  - destruct (init H w) as [[|] w']; simpl in Hs; injection Hs as <-; simpl;
      subst l; [exists 0; reflexivity | left; reflexivity].
  - destruct (stop_flag_ (base w)); simpl in Hs; injection Hs as <-; exact Hsh.
  - injection Hs as <-. simpl. destruct Hsh as [n ->]. now exists n.
  - injection Hs as <-. simpl. destruct Hsh as [n ->]. exists n.
    simpl. now rewrite <- app_assoc.
  - injection Hs as <-. simpl. destruct Hsh as [n ->]. exists (S n).
    simpl app. rewrite <- app_assoc. simpl app. now rewrite iterations_snoc.
  - injection Hs as <-. simpl. destruct Hsh as [n ->]. right. now exists n.
  - discriminate.
Qed.

Lemma step_shape c c' :
  step H env c c' -> shape (pc c) (calls c) -> shape (pc c') (calls c').
Proof.
  intros [c1 c2 Hs|c1 w' He]; [now apply loop_step_shape|trivial].
Qed.

Lemma reachable_shape id w c :
  rtc (step H env) (entry id w) c -> shape (pc c) (calls c).
Proof.
  revert c. apply rtc_ind_r; [reflexivity|].
  intros c c' _ Hs IH. eapply step_shape; eassumption.
Qed.

(** The worker thread running alone is one behaviour of the machine. *)
Lemma loop_reaches fuel c : rtc (step H env) c (Thread.loop H fuel c).
Proof.
  revert c. induction fuel as [|fuel IH]; intros c; simpl; [apply rtc_refl|].
  destruct (Thread.loop_step H c) as [c'|] eqn:Hs; [|apply rtc_refl].
  eapply rtc_l; [apply step_worker; exact Hs|apply IH].
Qed.

(** A step of the worker either makes no call and leaves the object as it
    is (the check of the stop flag), or logs one call and applies its hook
    to the object. *)
Lemma loop_step_call c c' :
  Thread.loop_step H c = Some c' ->
  (calls c' = calls c /\ obj c' = obj c) \/
  (exists a, calls c' = calls c ++ [a] /\
             call_result H a (obj c) /\ obj c' = apply_call H a (obj c)).
Proof.
  unfold Thread.loop_step. destruct c as [p w l]. simpl.
  destruct p; simpl; intros Hs.
  - right. destruct (init H w) as [ok w1] eqn:Hi.
    exists (CallInit ok). simpl. rewrite Hi. simpl.
    destruct ok; simpl in Hs; injection Hs as <-; simpl; now repeat split.
  - left. destruct (stop_flag_ (base w)); simpl in Hs; injection Hs as <-;
      now split.
  - right. injection Hs as <-. exists CallPreRun. now repeat split.
  - right. injection Hs as <-. exists CallRun. now repeat split.
  - right. injection Hs as <-. exists CallPostRun. now repeat split.
  - right. injection Hs as <-. exists CallUninit. now repeat split.
  - discriminate.
Qed.

(** Every logged call is a hook applied to the object, in the order of
    the log. *)
Lemma reachable_replayed_from c0 c :
  rtc (step H env) c0 c ->
  exists done,
    calls c = calls c0 ++ done /\ replayed H env (obj c0) done (obj c).
Proof.
  revert c. apply rtc_ind_r.
  - exists []. split; [now rewrite app_nil_r|apply replayed_nil].
  - intros c c' _ Hs [done [Hc Hrep]]. destruct Hs as [c1 c2 Hs|c1 w' He].
    + destruct (loop_step_call _ _ Hs) as [[Hl Ho]|[a [Hl [Hres Ho]]]].
      * exists done. rewrite Hl, Ho. now split.
      * exists (done ++ [a]). rewrite Hl, Ho, Hc, app_assoc.
        split; [reflexivity|]. now apply replayed_call.
    + exists done. simpl. split; [exact Hc|]. eapply replayed_env; eassumption.
Qed.

Lemma reachable_replayed c0 c :
  calls c0 = [] ->
  rtc (step H env) c0 c -> replayed H env (obj c0) (calls c) (obj c).
Proof.
  intros H0 Hr. destruct (reachable_replayed_from c0 c Hr) as [done [Hc Hrep]].
  rewrite H0 in Hc. simpl in Hc. now rewrite Hc.
Qed.

Lemma replayed_alone w0 l w :
  (forall v v', env v v' -> v = v') ->
  replayed H env w0 l w ->
  w = fold_left (fun v a => apply_call H a v) l w0.
Proof.
  intros Henv. induction 1 as [|l w w' _ IH He|l a w _ IH _].
  - reflexivity.
  - rewrite <- (Henv _ _ He). exact IH.
  - rewrite fold_left_app. simpl. now rewrite <- IH.
Qed.

Lemma fold_iterations n w :
  fold_left (fun v a => apply_call H a v) (iterations n) w
  = Nat.iter n (body H) w.
Proof.
  revert w. induction n as [|n IH]; intros w; [reflexivity|].
  rewrite Nat.iter_succ_r. simpl. rewrite IH. reflexivity.
Qed.

End MachineFacts.

(** C5: in every run of the loop in which [init] succeeded and that has
    exited, whatever the other threads did meanwhile, the calls made are
    [init], then some number [n] of iterations, each exactly
    [pre_run; run; post_run] in this order, then [uninit]. So there are as
    many [pre_run] as [post_run] calls, one [init] before the first
    [pre_run] and one [uninit] after the last [post_run]. These calls are
    the hooks themselves at work on the object: its state at the exit is its
    state at the entry with the hooks applied in this order, between the
    steps of the other threads; with no interference it is
    [uninit (body^n (init w))]. *)
Theorem loop_hook_sequence {F} (H : Hooks F) (env : relation (Worker F))
  (id : ThreadId) (w : Worker F) (c : Config F) :
  rtc (step H env) (entry id w) c ->
  pc c = Exited ->
  In (CallInit true) (calls c) ->
  exists n,
    calls c = CallInit true :: iterations n ++ [CallUninit] /\
    count (HookCall_eqb CallPreRun) (calls c) = n /\
    count (HookCall_eqb CallRun) (calls c) = n /\
    count (HookCall_eqb CallPostRun) (calls c) = n /\
    count is_init (calls c) = 1 /\
    count (HookCall_eqb CallUninit) (calls c) = 1 /\
    replayed H env (obj (entry id w)) (calls c) (obj c) /\
    ((forall v v', env v v' -> v = v') ->
     obj c = uninit H (Nat.iter n (body H) (init H (obj (entry id w))).2)).
Proof.
  intros Hr Hpc Hin. pose proof (reachable_shape H env id w c Hr) as Hsh.
  pose proof (reachable_replayed H env (entry id w) c eq_refl Hr) as Hrep.
  rewrite Hpc in Hsh. simpl in Hsh. destruct Hsh as [Hl|[n Hl]].
  - rewrite Hl in Hin. simpl in Hin. destruct Hin as [Heq|[]]. discriminate.
  - exists n. split; [exact Hl|].
    assert (Hcounts :
      count (HookCall_eqb CallPreRun) (calls c) = n /\
      count (HookCall_eqb CallRun) (calls c) = n /\
      count (HookCall_eqb CallPostRun) (calls c) = n /\
      count is_init (calls c) = 1 /\
      count (HookCall_eqb CallUninit) (calls c) = 1).
    { rewrite Hl.
      change (CallInit true :: iterations n ++ [CallUninit])
        with ([CallInit true] ++ iterations n ++ [CallUninit]).
      rewrite !count_app, !count_iterations. simpl. repeat split; lia. }
    destruct Hcounts as [H1 [H2 [H3 [H4 H5]]]].
    do 5 (split; [assumption|]). split; [exact Hrep|].
    intros Henv. rewrite (replayed_alone H env _ _ _ Henv Hrep), Hl.
    change (CallInit true :: iterations n ++ [CallUninit])
      with ([CallInit true] ++ iterations n ++ [CallUninit]).
    rewrite !fold_left_app, fold_iterations. reflexivity.
Qed.

Lemma loop_hook_sequence_witness :
  let e := entry 7 (set_base {| thread_ := Some 7; stop_flag_ := false |}
                      (LifecycleThread.ctor 3 (mkPlatform 1 0%Z []))) in
  let c := Thread.loop LifecycleThread.hooks 40 e in
  (exists n,
     calls c = CallInit true :: iterations n ++ [CallUninit] /\
     n = 3 /\
     obj c = uninit LifecycleThread.hooks
               (Nat.iter n (body LifecycleThread.hooks)
                         (init LifecycleThread.hooks (obj e)).2)) /\
  fields (obj c) = mkLifecycleThread 3 1 1 3 3 3.
Proof.
  intros e c. split; [|reflexivity].
  destruct (loop_hook_sequence LifecycleThread.hooks quiet 7
              (set_base {| thread_ := Some 7; stop_flag_ := false |}
                 (LifecycleThread.ctor 3 (mkPlatform 1 0%Z [])))
              c (loop_reaches _ _ _ _) eq_refl (or_introl eq_refl))
    as [n [Hc [Hn [_ [_ [_ [_ [_ Hobj]]]]]]]].
  exists n. split; [exact Hc|]. split; [rewrite <- Hn; reflexivity|].
  apply Hobj. intros v v' Hv. exact Hv.
Defined.

(** C2: for a worker whose [init] returns failure, the thread spawned by
    [start] makes the [init] call and nothing else: in every configuration
    of the run, under any behaviour of the other threads, the loop is either
    still before [init] with no call made, or has exited with [init] as its
    only call (no [pre_run], [run], [post_run] or [uninit]). From the entry
    the worker thread steps straight to the exit, storing [true] in the
    stop flag itself. The [start] that spawned the thread has returned true
    all the same. *)
Theorem init_failure_aborts_run {F} (H : Hooks F) (env : relation (Worker F))
  (id : ThreadId) (w : Worker F) :
  (forall v, (init H v).1 = false) ->
  (forall c, rtc (step H env) (entry id w) c ->
     (pc c = AtInit /\ calls c = []) \/
     (pc c = Exited /\ calls c = [CallInit false])) /\
  (forall c, rtc (step H env) (entry id w) c -> pc c = AtInit ->
     exists c', Thread.loop_step H c = Some c' /\
       pc c' = Exited /\ calls c' = [CallInit false] /\
       stop_flag_ (base (obj c')) = true /\
       Thread.loop_step H c' = None) /\
  (forall t, thread_ t = None ->
     (Thread.start (Some id) t).1.1 = Returned true).
Proof.
  intros Hfail.
  assert (Hinv : forall c, rtc (step H env) (entry id w) c ->
     (pc c = AtInit /\ calls c = []) \/
     (pc c = Exited /\ calls c = [CallInit false])).
  { apply rtc_ind_r; [left; split; reflexivity|].
    intros c c' _ Hs IH. destruct Hs as [c1 c2 Hs|c1 w' He]; [|exact IH].
    unfold Thread.loop_step in Hs. destruct c1 as [p v l]. simpl in *.
    destruct IH as [[-> ->]|[-> ->]]; [|discriminate].
    specialize (Hfail v). destruct (init H v) as [ok v']. simpl in Hfail.
    subst ok. simpl in Hs. injection Hs as <-. right. split; reflexivity. }
  split; [exact Hinv|]. split.
  - intros c Hr Hpc. destruct (Hinv c Hr) as [[_ Hl]|[Hp _]]; [|congruence].
    unfold Thread.loop_step. destruct c as [p v l]. simpl in *. subst p l.
    specialize (Hfail v). destruct (init H v) as [ok v']. simpl in Hfail.
    subst ok. simpl. eexists. split; [reflexivity|]. simpl. tauto.
  - intros t Hn. now rewrite (start_spawns t id Hn).
Qed.

Lemma init_failure_aborts_run_witness :
  let c := Thread.loop FailingInitThread.hooks 10
             (entry 7 (set_base {| thread_ := Some 7; stop_flag_ := false |}
                         (FailingInitThread.ctor (mkPlatform 1 0%Z [])))) in
  (pc c = AtInit /\ calls c = []) \/
  (pc c = Exited /\ calls c = [CallInit false]).
Proof.
  refine (proj1 (init_failure_aborts_run FailingInitThread.hooks quiet 7
                   (set_base {| thread_ := Some 7; stop_flag_ := false |}
                      (FailingInitThread.ctor (mkPlatform 1 0%Z []))) _) _ _).
  - intros v. reflexivity.
  - apply loop_reaches.
Defined.

(** ** stop from the worker's own thread *)

Lemma log_nil p : log [] p = p.
Proof. destruct p. unfold log. simpl. now rewrite app_nil_r. Qed.

Lemma stop_here_own_thread {F} wait_join (w : Worker F) :
  thread_ (base w) = Some (this_thread (os w)) ->
  Thread.stop_here wait_join w
  = set_base {| thread_ := thread_ (base w); stop_flag_ := true |} w.
Proof.
  intros Hs. unfold Thread.stop_here.
  rewrite (stop_own_thread _ wait_join _ Hs). rewrite log_nil.
  unfold set_base. now rewrite Hs.
Qed.

(** C8: a [stop] issued by the worker's own thread (the id of the handle is
    the id of the calling thread) stores [true] in the stop flag and makes
    no platform call, whatever [wait_join] is: it does not join, and it
    leaves the handle as it is. When it is [run] that makes this call, the
    loop goes on to [post_run], finds the flag set, calls [uninit] and
    exits: four steps of the worker thread, none of them blocking. *)
Theorem stop_from_own_thread_never_joins (self : ThreadId) (wait_join : bool)
  (t : Thread) :
  thread_ t = Some self ->
  Thread.stop self wait_join t
  = ({| thread_ := Some self; stop_flag_ := true |}, []) /\
  ~ In (Join self) (Thread.stop self wait_join t).2 /\
  forall F (H : Hooks F) (work : Worker F -> Worker F) (c : Config F),
    (forall v, run H v = Thread.stop_here wait_join (work v)) ->
    (forall v, base (post_run H v) = base v) ->
    pc c = AtRun ->
    base (work (obj c)) = t ->
    this_thread (os (work (obj c))) = self ->
    effects (os (run H (obj c))) = effects (os (work (obj c))) /\
    stop_flag_ (base (run H (obj c))) = true /\
    Thread.loop H 4 c
    = mkConfig Exited (uninit H (post_run H (run H (obj c))))
               (calls c ++ [CallRun; CallPostRun; CallUninit]).
Proof.
  intros Hs. rewrite (stop_own_thread self wait_join t Hs).
  split; [reflexivity|]. split; [intros []|].
  intros F H work c Hrun Hpost Hpc Hb Hid.
  assert (Hr : run H (obj c)
               = set_base {| thread_ := Some self; stop_flag_ := true |}
                          (work (obj c))).
  { rewrite Hrun, stop_here_own_thread; [now rewrite Hb, Hs|].
    now rewrite Hb, Hid. }
  split; [now rewrite Hr|]. split; [now rewrite Hr|].
  destruct c as [p v l]. simpl in *. subst p.
  unfold Thread.loop, Thread.loop_step. simpl.
  rewrite Hpost, Hr. simpl. now rewrite <- !app_assoc.
Qed.

Lemma stop_from_own_thread_never_joins_witness :
  Thread.stop 7 true {| thread_ := Some 7; stop_flag_ := false |}
  = ({| thread_ := Some 7; stop_flag_ := true |}, []) /\
  pc (Thread.loop (Thread.hooks (Thread.stop_here true)) 4
        (mkConfig AtRun
           (mkWorker {| thread_ := Some 7; stop_flag_ := false |} tt
                     (mkPlatform 7 0%Z []))
           [CallInit true; CallPreRun]))
  = Exited.
Proof.
  pose proof (stop_from_own_thread_never_joins 7 true
                {| thread_ := Some 7; stop_flag_ := false |} eq_refl)
    as [Hstop [_ Hloop]].
  split; [exact Hstop|].
  destruct (Hloop unit (Thread.hooks (Thread.stop_here true)) (fun v => v)
              (mkConfig AtRun
                 (mkWorker {| thread_ := Some 7; stop_flag_ := false |} tt
                           (mkPlatform 7 0%Z []))
                 [CallInit true; CallPreRun])
              (fun v => eq_refl) (fun v => eq_refl) eq_refl eq_refl eq_refl)
    as [_ [_ Hl]].
  rewrite Hl. reflexivity.
Defined.

(** ** Pacing *)

Local Open Scope Z_scope.

Lemma make_non_negative_duration_spec z :
  (z < 0 -> make_non_negative_duration z = 0) /\
  (0 <= z -> make_non_negative_duration z = z) /\
  0 <= make_non_negative_duration z.
Proof.
  unfold make_non_negative_duration.
  destruct (Z.ltb_spec z 0); repeat split; lia.
Qed.

(** The sums the pacing code forms stay within the 64-bit tick counts: a
    period is at most 2^31 microseconds, and a steady clock below 2^62
    nanoseconds covers more than a century of uptime. *)
Lemma pacing_sum_fits_int64 (micro_sec : Z) (tp : time_point) :
  int32 micro_sec -> 0 <= tp < 2 ^ 62 ->
  - 2 ^ 63 <= tp + to_ticks (make_non_negative_duration micro_sec) < 2 ^ 63.
Proof.
  unfold int32, to_ticks. intros Hi Ht.
  destruct (make_non_negative_duration_spec micro_sec) as [Hneg [Hpos Hnn]].
  assert (make_non_negative_duration micro_sec < 2 ^ 31).
  { destruct (Z.lt_ge_cases micro_sec 0); [rewrite Hneg|rewrite Hpos]; lia. }
  lia.
Qed.

(** C9: for every [int32_t] argument, the constructor of [TimedThread]
    stores 0 for a negative delay and the delay itself otherwise; its
    [pre_run] makes one [sleep_for] call with the stored duration when that
    duration is greater than zero and does nothing at all otherwise; the
    other hooks of a [TimedThread] are those of [Thread]. A
    [HiResTimedThread] built from a non-positive period stores a zero
    interval, and with it [pre_run] and [post_run] return the object and the
    platform unchanged: no clock-dependent update, no sleep. *)
Theorem timed_workers_construction (micro_sec : Z) :
  int32 micro_sec ->
  (forall U (u : U) (p : Platform),
     let d := sleep_duration_ (fields (TimedThread.ctor micro_sec u p)) in
     (micro_sec < 0 -> d = 0) /\ (0 <= micro_sec -> d = micro_sec) /\ 0 <= d) /\
  (forall U (w : Worker (TimedThread U)),
     let d := sleep_duration_ (fields w) in
     (0 < d ->
      TimedThread.pre_run w = set_os (sleep_for d (os w)) w /\
      effects (os (TimedThread.pre_run w)) = effects (os w) ++ [SleepFor d]) /\
     (d <= 0 -> TimedThread.pre_run w = w)) /\
  (forall U (body : Worker U -> Worker U),
     init (TimedThread.hooks body) = Thread.init /\
     uninit (TimedThread.hooks body) = Thread.uninit /\
     post_run (TimedThread.hooks body) = Thread.post_run /\
     pre_run (TimedThread.hooks body) = TimedThread.pre_run) /\
  (micro_sec <= 0 ->
   forall U (u : U) (p : Platform) (w : Worker (HiResTimedThread U)),
     loop_interval_ (fields (HiResTimedThread.ctor micro_sec u p)) = 0 /\
     (loop_interval_ (fields w)
      = loop_interval_ (fields (HiResTimedThread.ctor micro_sec u p)) ->
      HiResTimedThread.pre_run w = w /\ HiResTimedThread.post_run w = w)).
Proof.
  intros _. split; [|split; [|split]].
  - intros U u p. simpl. apply make_non_negative_duration_spec.
  - intros U w d. unfold TimedThread.pre_run. fold d.
    destruct (Z.gtb_spec d 0); split; intros Hd; try lia;
      [split; reflexivity|reflexivity].
  - intros U body. repeat split.
  - intros Hle U u p w.
    assert (H0 : loop_interval_ (fields (HiResTimedThread.ctor micro_sec u p)) = 0).
    { simpl. unfold make_non_negative_duration.
      destruct (Z.ltb_spec micro_sec 0); lia. }
    split; [exact H0|]. rewrite H0. intros Hw.
    unfold HiResTimedThread.pre_run, HiResTimedThread.post_run.
    rewrite Hw. simpl. split; reflexivity.
Qed.

Lemma timed_workers_construction_witness :
  sleep_duration_ (fields (TimedThread.ctor (-5) tt (mkPlatform 1 0 []))) = 0 /\
  effects (os (TimedThread.pre_run (TimedThread.ctor 2000 tt (mkPlatform 1 0 []))))
  = [SleepFor 2000] /\
  HiResTimedThread.post_run (HiResTimedThread.ctor (-5) tt (mkPlatform 1 9 []))
  = HiResTimedThread.ctor (-5) tt (mkPlatform 1 9 []).
Proof.
  split; [|split].
  - refine (proj1 (proj1 (timed_workers_construction (-5) _) unit tt
                     (mkPlatform 1 0 [])) _); unfold int32; lia.
  - refine (proj2 (proj1 (proj1 (proj2 (timed_workers_construction 2000 _))
                     unit (TimedThread.ctor 2000 tt (mkPlatform 1 0 []))) _));
      [unfold int32; lia|evaluate].
  - refine (proj2 (proj2 (proj2 (proj2 (proj2 (timed_workers_construction (-5) _)))
                     _ unit tt (mkPlatform 1 9 [])
                     (HiResTimedThread.ctor (-5) tt (mkPlatform 1 9 []))) _));
      [unfold int32; lia|lia|reflexivity].
Defined.

Lemma time_point_add_exact tp d :
  tp + d < 2 ^ 63 -> time_point_add tp d = tp + d.
Proof.
  intros Hs. unfold time_point_add. cbv zeta.
  destruct (Z.leb_spec (2 ^ 63) (tp + d)); [lia|reflexivity].
Qed.


Lemma time_point_add_le tp d : time_point_add tp d <= tp + d.
Proof.
  unfold time_point_add. cbv zeta.
  destruct (Z.leb_spec (2 ^ 63) (tp + d)); lia.
Qed.

(** On the counts the code adds, [time_point_add] is the sum modulo 2^64
    read as a signed count, and stays a 64-bit count. *)
Lemma time_point_add_two_complement tp d :
  int64 tp -> 0 <= d < 2 ^ 63 ->
  time_point_add tp d = (tp + d + 2 ^ 63) mod 2 ^ 64 - 2 ^ 63 /\
  int64 (time_point_add tp d).
Proof.
  unfold int64, time_point_add. intros Ht Hd. cbv zeta.
  destruct (Z.leb_spec (2 ^ 63) (tp + d)).
  - replace (tp + d + 2 ^ 63) with (tp + d - 2 ^ 63 + 1 * 2 ^ 64) by lia.
    rewrite Z.mod_add by lia. rewrite Z.mod_small by lia. lia.
  - rewrite Z.mod_small by lia. lia.
Qed.

Lemma period_ticks_bound micro_sec :
  int32 micro_sec -> 0 <= to_ticks micro_sec < 2 ^ 62 \/ micro_sec < 0.
Proof. unfold int32, to_ticks. intros Hi. lia. Qed.




(** ** The timing members over runs and restarts *)

Section Paced.

Context {U : Type}.
Variable user_init : Worker U -> bool * Worker U.
Variable user_run : Worker U -> Worker U.
Variable env : relation (Worker (HiResTimedThread U)).
Hypothesis env_keeps_timing : keeps_timing env.

Let H := HiResTimedThread.hooks user_init user_run.

(** A method of a derived class leaves the timing members alone. *)
Lemma derived_timing {A} (f : Worker U -> A * Worker U) w :
  HiResTimedThread.timing (HiResTimedThread.derived f w).2
  = HiResTimedThread.timing w.
Proof.
  unfold HiResTimedThread.derived.
  destruct (f (set_fields (hires_derived (fields w)) w)) as [a w'].
  reflexivity.
Qed.

Lemma unarmed_timing (w w' : Worker (HiResTimedThread U)) :
  HiResTimedThread.timing w' = HiResTimedThread.timing w ->
  HiResTimedThread.unarmed w -> HiResTimedThread.unarmed w'.
Proof.
  unfold HiResTimedThread.timing, HiResTimedThread.unarmed.
  intros Ht [Hf Hd]. injection Ht as _ -> ->. now split.
Qed.








End Paced.


Lemma controller_keeps_timing {U} :
  keeps_timing (@controller (HiResTimedThread U)).
Proof.
  intros w w' [[_ [Hf _]]|[caller [wait_join [_ ->]]]];
    unfold HiResTimedThread.timing; [now rewrite Hf|reflexivity].
Qed.




Section PacedRun.

Context {U : Type}.
Variable user_init : Worker U -> bool * Worker U.
Variable user_run : Worker U -> Worker U.
Variable env : relation (Worker (HiResTimedThread U)).
Hypothesis env_keeps_timing : keeps_timing env.
Variable period : microseconds.
Hypothesis period_nonzero : period <> 0.

Let H := HiResTimedThread.hooks user_init user_run.

Lemma pre_run_clears_flag (w : Worker (HiResTimedThread U)) :
  loop_interval_ (fields w) = period ->
  first_iteration_ (fields (HiResTimedThread.pre_run w)) = false /\
  loop_interval_ (fields (HiResTimedThread.pre_run w)) = period.
Proof.
  intros Hi. unfold HiResTimedThread.pre_run. rewrite Hi.
  destruct (Z.eqb_spec period 0) as [|_]; [contradiction|].
  destruct (first_iteration_ (fields w)) eqn:Hf; simpl; auto.
Qed.

Lemma post_run_keeps_flag (w : Worker (HiResTimedThread U)) :
  first_iteration_ (fields (HiResTimedThread.post_run w))
  = first_iteration_ (fields w) /\
  loop_interval_ (fields (HiResTimedThread.post_run w))
  = loop_interval_ (fields w).
Proof.
  unfold HiResTimedThread.post_run.
  destruct (loop_interval_ (fields w) =? 0); [auto|].
  destruct (steady_now (os w) <? next_deadline_ (fields w)); simpl; auto.
Qed.

Lemma timing_interval (w w' : Worker (HiResTimedThread U)) :
  HiResTimedThread.timing w' = HiResTimedThread.timing w ->
  loop_interval_ (fields w') = loop_interval_ (fields w) /\
  first_iteration_ (fields w') = first_iteration_ (fields w) /\
  next_deadline_ (fields w') = next_deadline_ (fields w).
Proof. unfold HiResTimedThread.timing. intros Ht. now injection Ht. Qed.

Lemma in_snoc (a b : HookCall) l : In a (l ++ [b]) <-> In a l \/ a = b.
Proof.
  rewrite in_app_iff. simpl. intuition congruence.
Qed.

Lemma loop_step_armed_inv c c' :
  Thread.loop_step H c = Some c' -> armed_inv period c -> armed_inv period c'.
Proof.
  unfold Thread.loop_step, armed_inv. destruct c as [p w l]. simpl.
  destruct p; simpl; intros Hs [Hi Hinv].
  - pose proof (derived_timing user_init w) as Ht.
    change (init H w) with (HiResTimedThread.derived user_init w) in Hs.
    destruct (HiResTimedThread.derived user_init w) as [[|] v];
      simpl in Hs, Ht; injection Hs as <-; simpl.
    + destruct (timing_interval _ _ Ht) as [Hi' _]. split; [congruence|].
      destruct Hinv as [Hu Hn]. split.
      * rewrite in_snoc. intros [Hl|Hd]; [contradiction|discriminate].
      * intros _. now apply (unarmed_timing w).
    + destruct (timing_interval _ _ Ht) as [Hi' _]. split; [congruence|trivial].
  - destruct (stop_flag_ (base w)); simpl in Hs; injection Hs as <-; simpl;
      now split.
  - injection Hs as <-. simpl.
    destruct (pre_run_clears_flag w Hi) as [Hf Hi']. split; [exact Hi'|].
    split; [|exact Hf]. rewrite in_snoc. now right.
  - injection Hs as <-. simpl.
    pose proof (derived_timing (fun v => (tt, user_run v)) w) as Ht.
    destruct (timing_interval _ _ Ht) as [Hi' [Hf' _]].
    split; [simpl in *; congruence|]. destruct Hinv as [Hin Hf]. split.
    + rewrite in_snoc. now left.
    + simpl in *. congruence.
  - injection Hs as <-. simpl.
    destruct (post_run_keeps_flag w) as [Hf' Hi']. split; [congruence|].
    destruct Hinv as [Hin Hf]. split.
    + intros _. congruence.
    + rewrite in_snoc. intros Hn. destruct Hn. now left.
  - injection Hs as <-. simpl. split; [|trivial].
    reflexivity || (simpl; exact Hi).
  - discriminate.
Qed.

Lemma step_armed_inv c c' :
  step H env c c' -> armed_inv period c -> armed_inv period c'.
Proof.
  intros [c1 c2 Hs|c1 w' He]; [now apply loop_step_armed_inv|].
  unfold armed_inv. simpl. intros [Hi Hinv].
  destruct (timing_interval _ _ (env_keeps_timing _ _ He)) as [Hi' [Hf' Hd']].
  split; [congruence|].
  assert (Hu : HiResTimedThread.unarmed (obj c1) -> HiResTimedThread.unarmed w').
  { apply unarmed_timing. now apply env_keeps_timing. }
  destruct (pc c1); try tauto; destruct Hinv as [H1 H2];
    (split; [try tauto; intros; rewrite Hf'; tauto|try tauto]).
  all: rewrite Hf'; tauto.
Qed.

Lemma reachable_armed_inv id (w : Worker (HiResTimedThread U)) c :
  HiResTimedThread.unarmed w -> loop_interval_ (fields w) = period ->
  rtc (step H env) (entry id w) c -> armed_inv period c.
Proof.
  intros Hu Hi. revert c. apply rtc_ind_r.
  - split; [exact Hi|]. simpl. split; [exact Hu|intros []].
  - intros c c' _ Hs IH. eapply step_armed_inv; eassumption.
Qed.

End PacedRun.




(** * Further properties of the code *)

(** ** The public functions in sequence *)

(** X1: [stop] is idempotent: a second call by the same thread with the
    same argument makes no platform call (in particular no second join) and
    leaves the members as the first call left them; on an object that was
    never started the first call already does nothing. *)
Theorem stop_idempotent (caller : ThreadId) (wait_join : bool) (t : Thread) :
  Thread.stop caller wait_join (Thread.stop caller wait_join t).1
  = ((Thread.stop caller wait_join t).1, []) /\
  Thread.stop caller wait_join Thread.ctor = (Thread.ctor, []).
Proof.
  split; [|reflexivity].
  destruct (thread_ t) as [id|] eqn:Hh.
  - destruct (decide (id = caller)) as [->|Hne].
    + rewrite (stop_own_thread caller wait_join t Hh). simpl.
      now apply stop_own_thread.
    + rewrite (stop_other_thread caller wait_join id t Hh Hne).
      destruct wait_join; simpl.
      * now apply stop_no_thread.
      * now rewrite (stop_other_thread caller false id).
  - rewrite (stop_no_thread caller wait_join t Hh). simpl.
    now apply stop_no_thread.
Qed.

Lemma api_call_outstanding a t rest :
  outstanding (thread_ t) ((api_call a t).2 ++ rest)
  = outstanding (thread_ (api_call a t).1) rest.
Proof.
  destruct a as [created|caller wait_join]; simpl.
  - destruct t as [[id|] flag]; [reflexivity|].
    destruct created as [id|]; reflexivity.
  - destruct (thread_ t) as [id|] eqn:Hh.
    + destruct (decide (id = caller)) as [->|Hne].
      * now rewrite (stop_own_thread caller wait_join t Hh).
      * rewrite (stop_other_thread caller wait_join id t Hh Hne).
        destruct wait_join; simpl; [|reflexivity].
        case_decide; [reflexivity|congruence].
    + now rewrite (stop_no_thread caller wait_join t Hh).
Qed.

(** X2: over any sequence of [start] and [stop] calls, by any threads and
    with any outcome of the thread creations, the platform calls made are
    thread creations and joins only (never a detach), a thread is created
    only while the handle is empty, a join is of the thread the handle
    holds, and the handle left at the end is the thread created last and
    not joined yet, or empty. So no thread is joined twice, and none is
    created while another is still held. *)
Theorem handle_tracks_spawned_thread (l : list ApiCall) (t : Thread) :
  outstanding (thread_ t) (api_calls l t).2 = Some (thread_ (api_calls l t).1).
Proof.
  revert t. induction l as [|a l IH]; intros t; [reflexivity|].
  simpl. pose proof (api_call_outstanding a t) as Ha.
  destruct (api_call a t) as [t1 e1]. specialize (IH t1).
  destruct (api_calls l t1) as [t2 e2]. simpl in *.
  now rewrite Ha.
Qed.

(** X4: the destructor run by the worker's own thread (the object destroyed
    from inside a hook) cannot join: its [stop(true)] makes no platform
    call, the handle is destroyed while joinable, and the program
    terminates. *)
Theorem dtor_on_own_thread (self : ThreadId) (t : Thread) :
  thread_ t = Some self ->
  Thread.dtor self t = (Terminates, []).
Proof.
  intros Hs. unfold Thread.dtor.
  now rewrite (stop_own_thread self true t Hs).
Qed.

Lemma dtor_on_own_thread_witness :
  Thread.dtor 7%nat {| thread_ := Some 7%nat; stop_flag_ := false |}
  = (Terminates, []).
Proof.
  exact (dtor_on_own_thread 7%nat
           {| thread_ := Some 7%nat; stop_flag_ := false |} eq_refl).
Defined.

(** X5: in every state an object can reach, a clear stop flag means that a
    thread is held by the handle; [start] is then refused and changes
    nothing, whatever the platform would do. *)
Theorem running_implies_joinable (t : Thread) :
  reachable t -> stop_flag_ t = false ->
  joinable (thread_ t) = true /\
  forall created, Thread.start created t = (Returned false, t, []).
Proof.
  intros Hr Hf.
  assert (Hj : joinable (thread_ t) = true).
  { destruct (thread_ t) eqn:Hh; [reflexivity|].
    pose proof (reachable_idle_stopped t Hr Hh). congruence. }
  split; [exact Hj|]. intros created. now apply start_joinable.
Qed.

Lemma running_implies_joinable_witness :
  joinable (thread_ (Thread.start (Some 7%nat) Thread.ctor).1.2) = true.
Proof.
  refine (proj1 (running_implies_joinable
                   (Thread.start (Some 7%nat) Thread.ctor).1.2 _ _)).
  - apply reach_start, reach_ctor.
  - reflexivity.
Defined.

(** ** The loop between its start and its end *)

Lemma loop_add {F} (H : Hooks F) (a b : nat) (c : Config F) :
  Thread.loop H (a + b) c = Thread.loop H b (Thread.loop H a c).
Proof.
  revert c. induction a as [|a IH]; intros c; [reflexivity|].
  simpl. destruct (Thread.loop_step H c) as [c'|] eqn:Hs; [apply IH|].
  destruct b; simpl; [reflexivity|]. now rewrite Hs.
Qed.

Lemma count_le_1_remaining p x :
  (count (HookCall_eqb x) (remaining p) <= 1)%nat.
Proof. destruct p, x; simpl; lia. Qed.

Lemma step_winding_down {F} (H : Hooks F) (env : relation (Worker F))
  (c0 c c' : Config F) :
  body_keeps_flag H true -> env_keeps_flag env true ->
  step H env c c' -> winding_down c0 c -> winding_down c0 c'.
Proof.
  intros Hbody Henv Hs [Hni [Hflag [done [Hc Hd]]]].
  destruct Hs as [c1 c2 Hs|c1 w' He].
  - unfold Thread.loop_step in Hs. destruct c1 as [p v l]. simpl in *.
    destruct p; try contradiction; simpl in *.
    + rewrite Hflag in Hs by discriminate. simpl in Hs. injection Hs as <-.
      split; [discriminate|]. split; [intros Hx; now destruct Hx|].
      exists done. now split.
    + injection Hs as <-. destruct (Hbody v) as [Hp _]; [now apply Hflag|].
      split; [discriminate|]. split; [intros _ _; exact Hp|].
      exists (done ++ [CallPreRun]). simpl. rewrite Hc, <- !app_assoc.
      now split.
    + injection Hs as <-. destruct (Hbody v) as [_ [Hr _]]; [now apply Hflag|].
      split; [discriminate|]. split; [intros _ _; exact Hr|].
      exists (done ++ [CallRun]). simpl. rewrite Hc, <- !app_assoc.
      now split.
    + injection Hs as <-. destruct (Hbody v) as [_ [_ Hp]]; [now apply Hflag|].
      split; [discriminate|]. split; [intros _ _; exact Hp|].
      exists (done ++ [CallPostRun]). simpl. rewrite Hc, <- !app_assoc.
      now split.
    + injection Hs as <-.
      split; [discriminate|]. split; [intros _ Hx; now destruct Hx|].
      exists (done ++ [CallUninit]). simpl. rewrite Hc, <- !app_assoc.
      now split.
    + discriminate.
  - simpl in *. split; [exact Hni|]. split.
    + intros H1 H2. eapply Henv; [exact He|]. now apply Hflag.
    + exists done. now split.
Qed.

(** X6: a stop request takes effect at the next check of the loop. From
    any point of a run after [init] at which the stop flag is set, if hooks
    and other threads leave the set flag alone, then under any interleaving
    the calls still made are a prefix of: the rest of the iteration under
    way, then [uninit]; no further iteration is begun; and the object is
    what these hooks, applied in this order between the steps of the other
    threads, make of it. Left alone, the worker thread makes exactly these
    calls, applies exactly these hooks and exits within five steps. *)
Theorem stop_ends_run_after_current_iteration {F} (H : Hooks F)
  (env : relation (Worker F)) (c : Config F) :
  body_keeps_flag H true -> env_keeps_flag env true ->
  pc c <> AtInit -> stop_flag_ (base (obj c)) = true ->
  (forall c', rtc (step H env) c c' ->
     exists done,
       calls c' = calls c ++ done /\
       done ++ remaining (pc c') = remaining (pc c) /\
       (count (HookCall_eqb CallRun) done <= 1)%nat /\
       (pc c <> AtPreRun -> count (HookCall_eqb CallPreRun) done = 0%nat) /\
       replayed H env (obj c) done (obj c')) /\
  pc (Thread.loop H 5 c) = Exited /\
  calls (Thread.loop H 5 c) = calls c ++ remaining (pc c) /\
  obj (Thread.loop H 5 c)
  = fold_left (fun v a => apply_call H a v) (remaining (pc c)) (obj c).
Proof.
  intros Hbody Henv Hni Hflag. split.
  - assert (Hinv : forall c', rtc (step H env) c c' -> winding_down c c').
    { apply rtc_ind_r.
      - split; [exact Hni|]. split; [intros _ _; exact Hflag|].
        exists []. split; [now rewrite app_nil_r|reflexivity].
      - intros c1 c2 _ Hs IH. eapply step_winding_down; eassumption. }
    intros c' Hr. destruct (Hinv c' Hr) as [_ [_ [done [Hc Hd]]]].
    exists done. split; [exact Hc|]. split; [exact Hd|].
    assert (Hcount : forall x,
              (count (HookCall_eqb x) done
               <= count (HookCall_eqb x) (remaining (pc c)))%nat).
    { intros x. rewrite <- Hd, count_app. lia. }
    split; [|split].
    + pose proof (Hcount CallRun). pose proof (count_le_1_remaining (pc c) CallRun).
      lia.
    + intros Hp. pose proof (Hcount CallPreRun) as Hle.
      destruct (pc c); try contradiction; simpl in Hle; lia.
    + destruct (reachable_replayed_from H env c c' Hr) as [done' [Hc' Hrep]].
      rewrite Hc in Hc'. apply app_inv_head in Hc'. now subst done'.
  - destruct c as [p v l]. simpl in *.
    destruct p; try contradiction; unfold Thread.loop, Thread.loop_step; simpl.
    + rewrite Hflag. simpl. now repeat split.
    + destruct (Hbody v Hflag) as [H1 _].
      destruct (Hbody _ H1) as [_ [H2 _]].
      destruct (Hbody _ H2) as [_ [_ H3]].
      rewrite H3. simpl. rewrite <- !app_assoc. now repeat split.
    + destruct (Hbody v Hflag) as [_ [H2 _]].
      destruct (Hbody _ H2) as [_ [_ H3]].
      rewrite H3. simpl. rewrite <- !app_assoc. now repeat split.
    + destruct (Hbody v Hflag) as [_ [_ H3]].
      rewrite H3. simpl. rewrite <- !app_assoc. now repeat split.
    + now repeat split.
    + split; [reflexivity|]. split; [now rewrite app_nil_r|reflexivity].
Qed.

Lemma stop_ends_run_after_current_iteration_witness :
  let H := Thread.hooks (fun v : Worker unit => set_os (sleep_for 5 (os v)) v) in
  let c := mkConfig AtRun
             (mkWorker {| thread_ := Some 7%nat; stop_flag_ := true |} tt
                       (mkPlatform 7 0 []))
             [CallInit true; CallPreRun] in
  pc (Thread.loop H 5 c) = Exited /\
  calls (Thread.loop H 5 c)
  = [CallInit true; CallPreRun; CallRun; CallPostRun; CallUninit] /\
  obj (Thread.loop H 5 c) = uninit H (post_run H (run H (obj c))).
Proof.
  intros H c.
  refine (proj2 (stop_ends_run_after_current_iteration H quiet c _ _ _ _)).
  - intros v Hv. repeat split; exact Hv.
  - intros v v' -> Hv. exact Hv.
  - discriminate.
  - reflexivity.
Defined.

Lemma uninit_not_in_iterations n : ~ In CallUninit (iterations n).
Proof. induction n as [|n IH]; simpl; intuition discriminate. Qed.

Lemma shape_uninit p l : shape p l -> In CallUninit l -> p = Exited.
Proof.
  pose proof uninit_not_in_iterations as Hit.
  destruct p; simpl; intros Hsh Hin; try reflexivity; exfalso.
  - subst l. exact Hin.
  - destruct Hsh as [n ->]. destruct Hin as [Hx|Hin]; [discriminate|].
    now apply (Hit n).
  - destruct Hsh as [n ->]. destruct Hin as [Hx|Hin]; [discriminate|].
    now apply (Hit n).
  - destruct Hsh as [n ->]. destruct Hin as [Hx|Hin]; [discriminate|].
    apply in_app_iff in Hin. destruct Hin as [Hin|Hin]; [now apply (Hit n)|].
    simpl in Hin. intuition discriminate.
  - destruct Hsh as [n ->]. destruct Hin as [Hx|Hin]; [discriminate|].
    apply in_app_iff in Hin. destruct Hin as [Hin|Hin]; [now apply (Hit n)|].
    simpl in Hin. intuition discriminate.
  - destruct Hsh as [n ->]. destruct Hin as [Hx|Hin]; [discriminate|].
    now apply (Hit n).
Qed.

Lemma iteration_without_stop {F} (H : Hooks F) (v : Worker F) l :
  body_keeps_flag H false ->
  stop_flag_ (base v) = false ->
  Thread.loop H 4 (mkConfig AtCheck v l)
  = mkConfig AtCheck (body H v) (l ++ [CallPreRun; CallRun; CallPostRun]) /\
  stop_flag_ (base (body H v)) = false.
Proof.
  intros Hbody Hf.
  destruct (Hbody v Hf) as [H1 _].
  destruct (Hbody _ H1) as [_ [H2 _]].
  destruct (Hbody _ H2) as [_ [_ H3]].
  split; [|exact H3].
  unfold Thread.loop, Thread.loop_step. simpl. rewrite Hf. simpl.
  now rewrite <- !app_assoc.
Qed.

(** X7: the loop has no iteration limit of its own. With an [init] that
    succeeds, and hooks and other threads that leave the clear stop flag
    alone, a run never reaches [uninit] or its exit, under any
    interleaving, and the object is what the hooks of the calls made so
    far, applied in this order between the steps of the other threads,
    make of it; and for every [n] the worker thread, left alone, gets to
    the check that follows its [n]-th iteration, with [init] and then [n]
    times the loop body applied to the object. *)
Theorem loop_runs_until_stopped {F} (H : Hooks F) (env : relation (Worker F))
  (id : ThreadId) (w : Worker F) :
  (forall v, (init H v).1 = true /\
             (stop_flag_ (base v) = false ->
              stop_flag_ (base (init H v).2) = false)) ->
  body_keeps_flag H false -> env_keeps_flag env false ->
  stop_flag_ (base w) = false ->
  (forall c, rtc (step H env) (entry id w) c ->
     pc c <> AtUninit /\ pc c <> Exited /\ ~ In CallUninit (calls c) /\
     replayed H env (obj (entry id w)) (calls c) (obj c)) /\
  (forall n, exists fuel,
     pc (Thread.loop H fuel (entry id w)) = AtCheck /\
     calls (Thread.loop H fuel (entry id w)) = CallInit true :: iterations n /\
     obj (Thread.loop H fuel (entry id w))
     = Nat.iter n (body H) (init H (obj (entry id w))).2).
Proof.
  intros Hinit Hbody Henv Hf. split.
  - assert (Hinv : forall c, rtc (step H env) (entry id w) c ->
              stop_flag_ (base (obj c)) = false /\
              pc c <> AtUninit /\ pc c <> Exited).
    { apply rtc_ind_r; [repeat split; try discriminate; exact Hf|].
      intros c c' _ Hs [Hfc [Hu He]].
      destruct Hs as [c1 c2 Hs|c1 w' Hw].
      - unfold Thread.loop_step in Hs. destruct c1 as [p v l]. simpl in *.
        destruct p; try contradiction.
        + destruct (Hinit v) as [Hok Hkeep].
          destruct (init H v) as [ok v']. simpl in *. subst ok. simpl in Hs.
          injection Hs as <-. simpl. repeat split; try discriminate. auto.
        + rewrite Hfc in Hs. simpl in Hs. injection Hs as <-. simpl.
          repeat split; try discriminate. exact Hfc.
        + injection Hs as <-. simpl. destruct (Hbody v Hfc) as [H1 _].
          repeat split; try discriminate. exact H1.
        + injection Hs as <-. simpl. destruct (Hbody v Hfc) as [_ [H2 _]].
          repeat split; try discriminate. exact H2.
        + injection Hs as <-. simpl. destruct (Hbody v Hfc) as [_ [_ H3]].
          repeat split; try discriminate. exact H3.
      - simpl in *. repeat split; try assumption. eapply Henv; eassumption. }
    intros c Hr. destruct (Hinv c Hr) as [_ [Hu He]].
    split; [exact Hu|]. split; [exact He|]. split.
    + intros Hin. apply He.
      exact (shape_uninit _ _ (reachable_shape H env id w c Hr) Hin).
    + exact (reachable_replayed H env (entry id w) c eq_refl Hr).
  - assert (Hn : forall n,
              Thread.loop H (1 + 4 * n) (entry id w)
              = mkConfig AtCheck
                  (Nat.iter n (body H) (init H (obj (entry id w))).2)
                  (CallInit true :: iterations n) /\
              stop_flag_
                (base (Nat.iter n (body H) (init H (obj (entry id w))).2))
              = false).
    { induction n as [|n [Hl Hv]].
      - destruct (Hinit (obj (entry id w))) as [Hok Hkeep].
        split; [|now apply Hkeep].
        simpl. unfold Thread.loop_step. simpl.
        destruct (init H _) as [ok v']. simpl in *. now subst ok.
      - destruct (iteration_without_stop H _ (CallInit true :: iterations n)
                    Hbody Hv) as [Hl' Hv'].
        split; [|exact Hv'].
        replace (1 + 4 * S n)%nat with ((1 + 4 * n) + 4)%nat by lia.
        rewrite loop_add, Hl, Hl'. f_equal.
        change (CallInit true :: iterations n)
          with ([CallInit true] ++ iterations n).
        rewrite <- app_assoc, iterations_snoc. reflexivity. }
    intros n. destruct (Hn n) as [Hl _].
    exists (1 + 4 * n)%nat. rewrite Hl. now repeat split.
Qed.

Lemma loop_runs_until_stopped_witness :
  let H := Thread.hooks (fun v : Worker unit => set_os (sleep_for 5 (os v)) v) in
  let e := entry 7 (mkWorker {| thread_ := Some 7%nat; stop_flag_ := false |}
                             tt (mkPlatform 1 0 [])) in
  exists fuel,
    pc (Thread.loop H fuel e) = AtCheck /\
    calls (Thread.loop H fuel e) = CallInit true :: iterations 3 /\
    obj (Thread.loop H fuel e)
    = Nat.iter 3 (body H) (init H (obj e)).2.
Proof.
  intros H e.
  refine (proj2 (loop_runs_until_stopped H quiet 7%nat
                   (mkWorker {| thread_ := Some 7%nat; stop_flag_ := false |}
                             tt (mkPlatform 1 0 [])) _ _ _ _) 3%nat).
  - intros v. split; [reflexivity|]. intros Hv. exact Hv.
  - intros v Hv. repeat split; exact Hv.
  - intros v v' -> Hv. exact Hv.
  - reflexivity.
Defined.

(** X8: at every moment of a run, not only at its end, the calls made so
    far are in loop order: [post_run] calls never outnumber [run] calls,
    which never outnumber [pre_run] calls, which are at most one ahead of
    the [post_run] calls; [init] and [uninit] are called at most once;
    no iteration hook is called before a successful [init]; and once
    [uninit] has been called the thread has exited with every iteration
    complete. This holds for any hooks and any interference. *)
Theorem hook_calls_in_order_at_any_time {F} (H : Hooks F)
  (env : relation (Worker F)) (id : ThreadId) (w : Worker F) (c : Config F) :
  rtc (step H env) (entry id w) c ->
  let n x := count (HookCall_eqb x) (calls c) in
  (n CallPostRun <= n CallRun)%nat /\
  (n CallRun <= n CallPreRun)%nat /\
  (n CallPreRun <= S (n CallPostRun))%nat /\
  (count is_init (calls c) <= 1)%nat /\
  (n CallUninit <= 1)%nat /\
  ((0 < n CallPreRun)%nat -> In (CallInit true) (calls c)) /\
  ((0 < n CallUninit)%nat ->
   pc c = Exited /\ n CallPreRun = n CallPostRun).
Proof.
  intros Hr n. pose proof (reachable_shape H env id w c Hr) as Hsh.
  unfold n. destruct (pc c); simpl in Hsh.
  - rewrite Hsh. simpl. repeat split; try lia.
  - destruct Hsh as [k ->].
    change (CallInit true :: iterations k) with ([CallInit true] ++ iterations k).
    rewrite !count_app, !count_iterations. simpl.
    repeat split; try lia; intros; try lia; now left.
  - destruct Hsh as [k ->].
    change (CallInit true :: iterations k) with ([CallInit true] ++ iterations k).
    rewrite !count_app, !count_iterations. simpl.
    repeat split; try lia; intros; try lia; now left.
  - destruct Hsh as [k ->].
    change (CallInit true :: iterations k ++ [CallPreRun])
      with ([CallInit true] ++ iterations k ++ [CallPreRun]).
    rewrite !count_app, !count_iterations. simpl.
    repeat split; try lia; intros; try lia; now left.
  - destruct Hsh as [k ->].
    change (CallInit true :: iterations k ++ [CallPreRun; CallRun])
      with ([CallInit true] ++ iterations k ++ [CallPreRun; CallRun]).
    rewrite !count_app, !count_iterations. simpl.
    repeat split; try lia; intros; try lia; now left.
  - destruct Hsh as [k ->].
    change (CallInit true :: iterations k) with ([CallInit true] ++ iterations k).
    rewrite !count_app, !count_iterations. simpl.
    repeat split; try lia; intros; try lia; now left.
  - destruct Hsh as [->|[k ->]].
    + simpl. repeat split; try lia.
    + change (CallInit true :: iterations k ++ [CallUninit])
        with ([CallInit true] ++ iterations k ++ [CallUninit]).
      rewrite !count_app, !count_iterations. simpl.
      repeat split; try lia; intros; try lia; now left.
Qed.

Lemma hook_calls_in_order_at_any_time_witness :
  let c := Thread.loop LifecycleThread.hooks 7
             (entry 7 (set_base {| thread_ := Some 7%nat; stop_flag_ := false |}
                         (LifecycleThread.ctor 3 (mkPlatform 1 0 [])))) in
  (pc c = AtRun /\
   count (HookCall_eqb CallPreRun) (calls c) = 2%nat /\
   count (HookCall_eqb CallPostRun) (calls c) = 1%nat) /\
  (count (HookCall_eqb CallPreRun) (calls c)
   <= S (count (HookCall_eqb CallPostRun) (calls c)))%nat.
Proof.
  intros c. split; [repeat split|].
  refine (proj1 (proj2 (proj2 (hook_calls_in_order_at_any_time
            LifecycleThread.hooks quiet 7%nat
            (set_base {| thread_ := Some 7%nat; stop_flag_ := false |}
               (LifecycleThread.ctor 3 (mkPlatform 1 0 []))) c _)))).
  apply loop_reaches.
Defined.

(** ** The workers of the test suite *)

Lemma int_incr_small z : - 2 ^ 31 <= z < 2 ^ 31 - 1 -> int_incr z = z + 1.
Proof.
  intros Hz. unfold int_incr. rewrite Z.mod_small by lia. lia.
Qed.

Lemma stop_no_wait caller t :
  Thread.stop caller false t = (store_stop_flag true t, []).
Proof.
  destruct (thread_ t) as [id|] eqn:Hh.
  - destruct (decide (id = caller)) as [->|Hne].
    + rewrite (stop_own_thread caller false t Hh).
      unfold store_stop_flag. now rewrite Hh.
    + rewrite (stop_other_thread caller false id t Hh Hne).
      unfold store_stop_flag. now rewrite Hh.
  - rewrite (stop_no_thread caller false t Hh).
    unfold store_stop_flag. now rewrite Hh.
Qed.

Lemma stop_here_no_wait {F} (w : Worker F) :
  Thread.stop_here false w = set_base (store_stop_flag true (base w)) w.
Proof.
  unfold Thread.stop_here. rewrite stop_no_wait, log_nil. reflexivity.
Qed.

(** One iteration of a [LifecycleThread]. *)
Lemma lifecycle_iteration (target i u k : Z) (h : Handle) (o : Platform) l :
  0 <= k < 2 ^ 31 - 1 ->
  Thread.loop LifecycleThread.hooks 4
    (mkConfig AtCheck
       (mkWorker {| thread_ := h; stop_flag_ := false |}
                 (mkLifecycleThread target i u k k k) o) l)
  = mkConfig AtCheck
      (mkWorker {| thread_ := h; stop_flag_ := (k + 1 >=? target) |}
                (mkLifecycleThread target i u (k + 1) (k + 1) (k + 1))
                (sleep_for 1000 o))
      (l ++ [CallPreRun; CallRun; CallPostRun]).
Proof.
  intros Hk. unfold Thread.loop, Thread.loop_step. simpl.
  unfold LifecycleThread.run, LifecycleThread.pre_run,
    LifecycleThread.post_run. simpl.
  rewrite !int_incr_small by lia.
  destruct (k + 1 >=? target) eqn:Hc.
  - rewrite stop_here_no_wait. simpl. rewrite ?int_incr_small by lia.
    now rewrite <- !app_assoc.
  - simpl. rewrite ?int_incr_small by lia. now rewrite <- !app_assoc.
Qed.

Lemma lifecycle_iterations (target : Z) (id : ThreadId) (p : Platform) (k : nat) :
  Z.of_nat k < target < 2 ^ 31 ->
  Thread.loop LifecycleThread.hooks (1 + 4 * k)
    (entry id (set_base {| thread_ := Some id; stop_flag_ := false |}
                 (LifecycleThread.ctor target p)))
  = mkConfig AtCheck
      (mkWorker {| thread_ := Some id; stop_flag_ := false |}
         (mkLifecycleThread target 1 0 (Z.of_nat k) (Z.of_nat k) (Z.of_nat k))
         (sleeps k (mkPlatform id (steady_now p) (effects p))))
      (CallInit true :: iterations k).
Proof.
  induction k as [|k IH]; intros Hk; [reflexivity|].
  replace (1 + 4 * S k)%nat with ((1 + 4 * k) + 4)%nat by lia.
  rewrite loop_add, IH by lia.
  rewrite lifecycle_iteration by lia.
  replace (Z.of_nat k + 1) with (Z.of_nat (S k)) by lia.
  destruct (Z.geb_spec (Z.of_nat (S k)) target) as [Hge|_]; [lia|].
  simpl sleeps. f_equal.
  change (CallInit true :: iterations k) with ([CallInit true] ++ iterations k).
  now rewrite <- app_assoc, iterations_snoc.
Qed.

(** X9: a [LifecycleThread] with a target of [n >= 1] iterations, started
    and left alone, stops itself: its thread exits after exactly [n]
    iterations, with [init] and [uninit] counted once and [pre_run], [run]
    and [post_run] counted [n] times each; the only platform calls are the
    [n] sleeps of [run], the stop flag is set and the handle is still
    held (the thread is not joined by its own [stop(false)]). *)
Theorem lifecycle_thread_counts (target : Z) (id : ThreadId) (p : Platform) :
  1 <= target < 2 ^ 31 ->
  let n := Z.to_nat target in
  let c := Thread.loop LifecycleThread.hooks (4 * n + 3)
             (entry id (set_base {| thread_ := Some id; stop_flag_ := false |}
                          (LifecycleThread.ctor target p))) in
  pc c = Exited /\
  calls c = CallInit true :: iterations n ++ [CallUninit] /\
  fields (obj c) = mkLifecycleThread target 1 1 target target target /\
  base (obj c) = {| thread_ := Some id; stop_flag_ := true |} /\
  effects (os (obj c)) = effects p ++ repeat (SleepFor 1000) n.
Proof.
  intros Ht n c.
  assert (Hn : (n = S (n - 1))%nat) by (unfold n; lia).
  assert (Hc : c = mkConfig Exited
                 (mkWorker {| thread_ := Some id; stop_flag_ := true |}
                    (mkLifecycleThread target 1 1 target target target)
                    (sleeps n (mkPlatform id (steady_now p) (effects p))))
                 (CallInit true :: iterations n ++ [CallUninit])).
  { unfold c.
    replace (4 * n + 3)%nat with ((1 + 4 * (n - 1)) + (4 + 2))%nat by lia.
    rewrite loop_add, lifecycle_iterations by (unfold n; lia).
    rewrite loop_add, lifecycle_iteration by (unfold n; lia).
    replace (Z.of_nat (n - 1) + 1) with target by (unfold n; lia).
    destruct (Z.geb_spec target target) as [_|Hlt]; [|lia].
    unfold Thread.loop, Thread.loop_step. simpl.
    unfold LifecycleThread.uninit. simpl.
    change (sleep_for 1000 (sleeps (n - 1) (mkPlatform id (steady_now p) (effects p))))
      with (sleeps (S (n - 1)) (mkPlatform id (steady_now p) (effects p))).
    rewrite iterations_snoc, <- Hn. reflexivity. }
  rewrite Hc. simpl. repeat split.
  clear. induction n as [|n IH]; simpl; [now rewrite app_nil_r|].
  rewrite IH. rewrite <- app_assoc. f_equal.
  clear. induction n as [|n IH]; simpl; [reflexivity|]. now rewrite <- IH.
Qed.

Lemma lifecycle_thread_counts_witness :
  let c := Thread.loop LifecycleThread.hooks 23
             (entry 7 (set_base {| thread_ := Some 7%nat; stop_flag_ := false |}
                         (LifecycleThread.ctor 5 (mkPlatform 1 0 [])))) in
  pc c = Exited /\
  fields (obj c) = mkLifecycleThread 5 1 1 5 5 5.
Proof.
  pose proof (lifecycle_thread_counts 5 7%nat (mkPlatform 1 0 [])
                ltac:(lia)) as [Hp [_ [Hf _]]].
  split; [exact Hp|exact Hf].
Defined.

Lemma gaps_ok_snoc gap ts x :
  gaps_ok gap (ts ++ [x]) <->
  gaps_ok gap ts /\ (forall l, last ts = Some l -> l + gap <= x).
Proof.
  induction ts as [|a ts IH]; simpl.
  - split; [intros _; split; [exact I|discriminate]|trivial].
  - destruct ts as [|b ts]; simpl in *.
    + split.
      * intros [Hle _]. split; [exact I|]. intros l Hl. injection Hl as <-. lia.
      * intros [_ Hl]. split; [now apply Hl|exact I].
    + rewrite IH. tauto.
Qed.

Lemma recording_run_spec (w : Worker (TimedThread RecordingTimedThread)) :
  let w' := run RecordingTimedThread.hooks w in
  RecordingTimedThread.timestamps w'
  = RecordingTimedThread.timestamps w ++ [steady_now (os w)] /\
  steady_now (os w') = steady_now (os w) + to_ticks 200 /\
  sleep_duration_ (fields w') = sleep_duration_ (fields w) /\
  tt_target_iterations_ (timed_derived (fields w'))
  = tt_target_iterations_ (timed_derived (fields w)) /\
  thread_ (base w') = thread_ (base w) /\
  stop_flag_ (base w')
  = if (tt_target_iterations_ (timed_derived (fields w))
        <=? length (RecordingTimedThread.timestamps w'))%nat
    then true else stop_flag_ (base w).
Proof.
  destruct w as [b [d [tg ts dn]] o].
  unfold RecordingTimedThread.timestamps. simpl.
  unfold TimedThread.derived, RecordingTimedThread.run. simpl.
  destruct (tg <=? length (ts ++ [steady_now o]))%nat eqn:E.
  - rewrite stop_here_no_wait. simpl. rewrite ?E. repeat split.
  - simpl. rewrite ?E. repeat split.
Qed.

Lemma recording_pre_run_spec (w : Worker (TimedThread RecordingTimedThread)) :
  let w' := pre_run RecordingTimedThread.hooks w in
  fields w' = fields w /\ base w' = base w /\
  steady_now (os w')
  = if sleep_duration_ (fields w) >? 0
    then steady_now (os w) + to_ticks (sleep_duration_ (fields w))
    else steady_now (os w).
Proof.
  simpl. unfold TimedThread.pre_run.
  destruct (Z.gtb_spec (sleep_duration_ (fields w)) 0); simpl;
    repeat split.
Qed.

Section RecordingTimed.

Variable env : relation (Worker (TimedThread RecordingTimedThread)).
Hypothesis env_fields :
  forall w w', env w w' -> fields w' = fields w.
Hypothesis env_clock : clock_monotone env.
Variable D : microseconds.

Lemma step_spaced c c' :
  step RecordingTimedThread.hooks env c c' -> spaced D c -> spaced D c'.
Proof.
  intros [c1 c2 Hs|c1 w' He] [Hd [Hg Hl]].
  - unfold Thread.loop_step in Hs. destruct c1 as [p v l].
    cbn [pc obj calls] in *.
    destruct p; cbn [pc obj calls] in *.
    + injection Hs as <-. now repeat split.
    + destruct (stop_flag_ (base v)); cbn [negb] in Hs; injection Hs as <-;
        now repeat split.
    + injection Hs as <-.
      change (spaced D (mkConfig AtRun (pre_run RecordingTimedThread.hooks v)
                                 (l ++ [CallPreRun]))).
      unfold spaced. cbn [pc obj calls].
      pose proof (recording_pre_run_spec v) as Hspec. cbv zeta in Hspec.
      destruct Hspec as [Hf [_ Hn]].
      unfold RecordingTimedThread.timestamps in *.
      rewrite Hf, Hn. split; [exact Hd|]. split; [exact Hg|].
      intros x Hx. specialize (Hl x Hx). rewrite Hd.
      destruct (Z.gtb_spec D 0); unfold to_ticks; lia.
    + injection Hs as <-.
      change (spaced D (mkConfig AtPostRun (run RecordingTimedThread.hooks v)
                                 (l ++ [CallRun]))).
      unfold spaced. cbn [pc obj calls].
      pose proof (recording_run_spec v) as Hspec. cbv zeta in Hspec.
      destruct Hspec as [Hts [Hn [Hsd _]]].
      rewrite Hts, Hn, Hsd. split; [exact Hd|]. split.
      * apply gaps_ok_snoc. split; [exact Hg|exact Hl].
      * intros x Hx. rewrite last_snoc in Hx. injection Hx as <-.
        unfold to_ticks. lia.
    + injection Hs as <-. now repeat split.
    + injection Hs as <-. now repeat split.
    + discriminate.
  - unfold spaced, RecordingTimedThread.timestamps in *. cbn [pc obj calls] in *.
    rewrite (env_fields _ _ He). split; [exact Hd|]. split; [exact Hg|].
    intros x Hx. specialize (Hl x Hx). pose proof (env_clock _ _ He).
    destruct (pc c1); lia.
Qed.

Lemma env_rtc_fields w w' : rtc env w w' -> fields w' = fields w.
Proof.
  induction 1 as [|w1 w2 w3 He _ IH]; [reflexivity|].
  rewrite IH. now apply env_fields.
Qed.

Lemma sequential_spaced micro_sec target p c :
  D = make_non_negative_duration micro_sec ->
  sequential RecordingTimedThread.hooks env
             (RecordingTimedThread.ctor micro_sec target p) c ->
  spaced D c.
Proof.
  intros HD. induction 1 as [w id b e Hr Hs|c c' _ IH Hs|c id b e _ IH Hpc Hs].
  - unfold spaced, RecordingTimedThread.timestamps. simpl.
    rewrite (env_rtc_fields _ _ Hr). simpl.
    split; [now symmetry|]. split; [exact I|discriminate].
  - eapply step_spaced; eassumption.
  - destruct IH as [Hd [Hg Hl]].
    unfold spaced, RecordingTimedThread.timestamps in *. simpl.
    split; [exact Hd|]. split; [exact Hg|].
    intros x Hx. specialize (Hl x Hx). now rewrite Hpc in Hl.
Qed.

End RecordingTimed.

(** X10: the time points a [RecordingTimedThread] records at the start of
    its [run] calls are spaced by at least the configured delay (zero for
    a negative argument), over the first run and every restart made after
    the thread spawned before has returned from the loop (so that one
    thread at a time runs the loop), whatever time passes in between and
    whatever the other threads call, as long as they leave the members of
    the object alone and the steady clock does not go back. *)
Theorem recording_timed_thread_gaps (micro_sec : Z) (target : nat)
  (p : Platform) (env : relation (Worker (TimedThread RecordingTimedThread)))
  (c : Config (TimedThread RecordingTimedThread)) :
  (forall w w', env w w' -> fields w' = fields w) ->
  clock_monotone env ->
  sequential RecordingTimedThread.hooks env
             (RecordingTimedThread.ctor micro_sec target p) c ->
  gaps_ok (to_ticks (make_non_negative_duration micro_sec))
          (RecordingTimedThread.timestamps (obj c)).
Proof.
  intros Hf Hc Hl.
  destruct (sequential_spaced env Hf Hc _ micro_sec target p c eq_refl Hl)
    as [_ [Hg _]].
  exact Hg.
Qed.

Lemma sequential_run {F} (H : Hooks F) (env : relation (Worker F)) w0 c c' :
  sequential H env w0 c -> rtc (step H env) c c' -> sequential H env w0 c'.
Proof.
  intros Hl Hr. induction Hr as [|c1 c2 c3 Hs _ IH]; [exact Hl|].
  apply IH. eapply seq_step; eassumption.
Qed.

Lemma controller_fields {F} (w w' : Worker F) :
  controller w w' -> fields w' = fields w.
Proof. intros [[_ [Hf _]]|[caller [wait_join [_ ->]]]]; [exact Hf|reflexivity]. Qed.

Lemma controller_clock {F} : clock_monotone (@controller F).
Proof.
  intros w w' [[_ [_ [_ [_ Hn]]]]|[caller [wait_join [_ ->]]]];
    [exact Hn|simpl; lia].
Qed.

Lemma controller_keeps_set_flag {F} : env_keeps_flag (@controller F) true.
Proof.
  intros w w' [[Hb _]|[caller [wait_join [_ ->]]]] Hf.
  - now rewrite Hb.
  - simpl. apply stop_sets_flag.
Qed.

Lemma recording_timed_thread_gaps_witness :
  let c := Thread.loop RecordingTimedThread.hooks 60
             (entry 7 (set_base {| thread_ := Some 7%nat; stop_flag_ := false |}
                         (RecordingTimedThread.ctor 2000 3 (mkPlatform 1 0 [])))) in
  (pc c = Exited /\
   RecordingTimedThread.timestamps (obj c) = [2000000; 4200000; 6400000]) /\
  gaps_ok (to_ticks (make_non_negative_duration 2000))
          (RecordingTimedThread.timestamps (obj c)).
Proof.
  intros c. split; [split; reflexivity|].
  apply (recording_timed_thread_gaps 2000 3 (mkPlatform 1 0 []) controller c
           controller_fields controller_clock).
  eapply sequential_run; [|apply loop_reaches].
  apply (seq_first _ _ _ (RecordingTimedThread.ctor 2000 3 (mkPlatform 1 0 []))
           7%nat {| thread_ := Some 7%nat; stop_flag_ := false |} [Spawn 7%nat]);
    [apply rtc_refl|reflexivity].
Defined.

Lemma step_within_target env c c' :
  (forall w w', env w w' -> fields w' = fields w) ->
  env_keeps_flag env true ->
  step RecordingTimedThread.hooks env c c' ->
  within_target c -> within_target c'.
Proof.
  intros Hfields Hflag [c1 c2 Hs|c1 w' He] [Hk Hp].
  - unfold Thread.loop_step in Hs. destruct c1 as [p v l].
    cbn [pc obj calls] in *.
    destruct p; cbn [pc obj calls] in *.
    + injection Hs as <-. split; [exact Hk|]. cbn [pc obj calls]. exact Hp.
    + destruct (stop_flag_ (base v)) eqn:Hf; cbn [negb] in Hs;
        injection Hs as <-; (split; [exact Hk|]); cbn [pc obj calls].
      * rewrite Hf. exact Hp.
      * now apply Hp.
    + injection Hs as <-.
      change (within_target (mkConfig AtRun (pre_run RecordingTimedThread.hooks v)
                                      (l ++ [CallPreRun]))).
      unfold within_target. cbn [pc obj calls].
      pose proof (recording_pre_run_spec v) as Hspec. cbv zeta in Hspec.
      destruct Hspec as [Hf _].
      unfold RecordingTimedThread.timestamps in *. rewrite Hf. now split.
    + injection Hs as <-.
      change (within_target (mkConfig AtPostRun (run RecordingTimedThread.hooks v)
                                      (l ++ [CallRun]))).
      unfold within_target. cbn [pc obj calls].
      pose proof (recording_run_spec v) as Hspec. cbv zeta in Hspec.
      destruct Hspec as [Hts [_ [_ [Htg [_ Hfl]]]]].
      rewrite Hfl, Hts, Htg, length_app. simpl length.
      destruct (Nat.leb_spec
                  (tt_target_iterations_ (timed_derived (fields v)))
                  (length (RecordingTimedThread.timestamps v) + 1)).
      * split; [lia|discriminate].
      * split; [lia|]. intros _. lia.
    + injection Hs as <-. split; [exact Hk|]. cbn [pc obj calls]. exact Hp.
    + injection Hs as <-. split; [exact Hk|]. cbn [pc obj calls]. exact Hp.
    + discriminate.
  - unfold within_target, RecordingTimedThread.timestamps in *.
    cbn [pc obj calls] in *. rewrite (Hfields _ _ He).
    split; [exact Hk|].
    assert (Hback : stop_flag_ (base w') = false ->
                    stop_flag_ (base (obj c1)) = false).
    { intros Hw. destruct (stop_flag_ (base (obj c1))) eqn:Hf; [|reflexivity].
      rewrite (Hflag _ _ He Hf) in Hw. discriminate. }
    destruct (pc c1); auto.
Qed.

(** X11: in the first run of a [RecordingTimedThread] with target [n], at
    most [max 1 n] time points are recorded, whatever the other threads do
    short of clearing the stop flag: the [stop(false)] the worker issues
    from its own [run] ends the run at the target. *)
Theorem recording_timed_thread_bounded (micro_sec : Z) (target : nat)
  (p : Platform) (id : ThreadId)
  (env : relation (Worker (TimedThread RecordingTimedThread)))
  (c : Config (TimedThread RecordingTimedThread)) :
  (forall w w', env w w' -> fields w' = fields w) ->
  env_keeps_flag env true ->
  rtc (step RecordingTimedThread.hooks env)
      (entry id (set_base {| thread_ := Some id; stop_flag_ := false |}
                   (RecordingTimedThread.ctor micro_sec target p))) c ->
  (length (RecordingTimedThread.timestamps (obj c)) <= Nat.max 1 target)%nat /\
  tt_target_iterations_ (timed_derived (fields (obj c))) = target.
Proof.
  intros Hfields Hflag Hr.
  assert (Hinv : within_target c /\
                 tt_target_iterations_ (timed_derived (fields (obj c))) = target).
  { revert c Hr. apply rtc_ind_r.
    - split; [|reflexivity]. split; simpl; intros; lia.
    - intros c1 c2 _ Hs [IH Htg]. split.
      + eapply step_within_target; eassumption.
      + destruct Hs as [c3 c4 Hs|c3 w' He].
        * unfold Thread.loop_step in Hs. destruct c3 as [q v l].
          cbn [pc obj calls] in *.
          destruct q; cbn [pc obj calls] in *.
          -- injection Hs as <-. exact Htg.
          -- destruct (stop_flag_ (base v)); cbn [negb] in Hs;
               injection Hs as <-; exact Htg.
          -- injection Hs as <-. cbn [obj].
             pose proof (recording_pre_run_spec v) as Hspec. cbv zeta in Hspec.
             destruct Hspec as [Hf _].
             change (TimedThread.pre_run v)
               with (pre_run RecordingTimedThread.hooks v).
             now rewrite Hf.
          -- injection Hs as <-.
             pose proof (recording_run_spec v) as Hspec. cbv zeta in Hspec.
             destruct Hspec as [_ [_ [_ [Ht _]]]].
             change (tt_target_iterations_
                       (timed_derived
                          (fields (run RecordingTimedThread.hooks v))) = target).
             now rewrite Ht.
          -- injection Hs as <-. exact Htg.
          -- injection Hs as <-. exact Htg.
          -- discriminate.
        * cbn [obj] in *. now rewrite (Hfields _ _ He). }
  destruct Hinv as [[Hk _] Htg]. split; [|exact Htg].
  unfold within_target in Hk. cbv zeta in Hk. now rewrite Htg in Hk.
Qed.

Lemma recording_timed_thread_bounded_witness :
  let c := Thread.loop RecordingTimedThread.hooks 60
             (entry 7 (set_base {| thread_ := Some 7%nat; stop_flag_ := false |}
                         (RecordingTimedThread.ctor 2000 3 (mkPlatform 1 0 [])))) in
  length (RecordingTimedThread.timestamps (obj c)) = 3%nat /\
  (length (RecordingTimedThread.timestamps (obj c)) <= Nat.max 1 3)%nat.
Proof.
  intros c. split; [reflexivity|].
  refine (proj1 (recording_timed_thread_bounded 2000 3 (mkPlatform 1 0 [])
                   7%nat controller c controller_fields
                   controller_keeps_set_flag _)).
  apply loop_reaches.
Defined.

(** ** Deadlines over several iterations *)

Lemma post_run_at_time {U} (micro_sec : Z) (t : time_point)
  (w : Worker (HiResTimedThread U)) :
  0 < micro_sec -> loop_interval_ (fields w) = micro_sec ->
  let d := next_deadline_ (fields w) in
  let w1 := HiResTimedThread.post_run (at_time t w) in
  loop_interval_ (fields w1) = micro_sec /\
  next_deadline_ (fields w1)
  = time_point_add (Z.max t d) (to_ticks micro_sec) /\
  (t < d -> effects (os w1) = effects (os w) ++ [SleepUntil d]) /\
  (d <= t -> effects (os w1) = effects (os w)).
Proof.
  intros Hpos Hi d w1. unfold w1, HiResTimedThread.post_run. simpl.
  rewrite Hi. destruct (Z.eqb_spec micro_sec 0) as [|_]; [lia|].
  fold d. destruct (Z.ltb_spec t d); simpl; rewrite ?Hi; fold d.
  - rewrite Z.max_r by lia. repeat split; intros; try lia; reflexivity.
  - rewrite Z.max_l by lia. repeat split; intros; try lia; reflexivity.
Qed.

(** X12: over [k] successive [post_run] calls of a [HiResTimedThread] with
    positive period [P], read at any times, as long as the sums stay within
    the 64-bit count of the clock (the deadline [d] and every reading are
    more than [k * P] short of 2^63), the deadline moves forward by at least
    [P] per call; and if every call comes before the deadline then in
    force, it moves by exactly [P] per call and the sleeps requested are
    until [d], [d + P], [d + 2P], ...: the deadlines stay on the grid fixed
    by the first one, however early or late within its period each
    iteration finishes. *)
Theorem hires_deadline_grid {U} (micro_sec : Z)
  (w : Worker (HiResTimedThread U)) (readings : list time_point) :
  int32 micro_sec -> 0 < micro_sec ->
  loop_interval_ (fields w) = make_non_negative_duration micro_sec ->
  let P := to_ticks micro_sec in
  let d := next_deadline_ (fields w) in
  let k := Z.of_nat (length readings) in
  let w' := post_runs readings w in
  d + k * P < 2 ^ 63 ->
  Forall (fun t => t + k * P < 2 ^ 63) readings ->
  d + k * P <= next_deadline_ (fields w') < 2 ^ 63 /\
  (all_early d P readings ->
   next_deadline_ (fields w') = d + k * P /\
   effects (os w') = effects (os w) ++ deadlines d P (length readings)).
Proof.
  intros _ Hpos Hi.
  destruct (make_non_negative_duration_spec micro_sec) as [_ [Hnn _]].
  rewrite Hnn in Hi by lia. clear Hnn. cbv zeta.
  assert (HP : 0 < to_ticks micro_sec) by (unfold to_ticks; lia).
  revert w Hi. induction readings as [|t readings IH]; intros w Hi Hd Hall.
  - simpl in *. split; [lia|]. intros _. split; [lia|now rewrite app_nil_r].
  - destruct (post_run_at_time micro_sec t w Hpos Hi)
      as [Hi1 [Hd1 [Hearly _]]].
    apply Forall_cons in Hall. destruct Hall as [Ht Hall].
    cbn [length] in Hd, Ht, Hall.
    rewrite Nat2Z.inj_succ in Hd, Ht.
    assert (Hexact : next_deadline_
                       (fields (HiResTimedThread.post_run (at_time t w)))
                     = Z.max t (next_deadline_ (fields w))
                       + to_ticks micro_sec).
    { rewrite Hd1. apply time_point_add_exact. nia. }
    destruct (IH _ Hi1) as [IHle IHeq].
    + rewrite Hexact. nia.
    + eapply Forall_impl; [exact Hall|]. simpl. intros x Hx.
      rewrite Nat2Z.inj_succ in Hx. nia.
    + cbn [post_runs length all_early deadlines].
      rewrite Nat2Z.inj_succ. rewrite Hexact in IHle. split; [nia|].
      intros [Hlt Hrest].
      assert (Hd2 : next_deadline_
                      (fields (HiResTimedThread.post_run (at_time t w)))
                    = next_deadline_ (fields w) + to_ticks micro_sec).
      { rewrite Hexact. lia. }
      rewrite Hd2 in IHeq. destruct (IHeq Hrest) as [IHd IHe].
      split; [lia|]. rewrite IHe, (Hearly Hlt), <- app_assoc. reflexivity.
Qed.

Lemma hires_deadline_grid_witness :
  let w := HiResTimedThread.set_next_deadline 5000000
             (HiResTimedThread.ctor 5000 tt (mkPlatform 7 0 [])) in
  next_deadline_ (fields (post_runs [4100000; 9900000; 10000001] w)) = 20000000 /\
  effects (os (post_runs [4100000; 9900000; 10000001] w))
  = [SleepUntil 5000000; SleepUntil 10000000; SleepUntil 15000000].
Proof.
  intros w.
  refine (proj2 (hires_deadline_grid 5000 w [4100000; 9900000; 10000001]
                   _ _ eq_refl _ _) _).
  - unfold int32. lia.
  - lia.
  - evaluate.
  - repeat constructor; evaluate.
  - vm_compute. tauto.
Defined.

Section PacedClock.

Context {U : Type}.
Variable user_init : Worker U -> bool * Worker U.
Variable user_run : Worker U -> Worker U.
Variable env : relation (Worker (HiResTimedThread U)).
Hypothesis env_keeps_timing : keeps_timing env.
Hypothesis env_clock : clock_monotone env.
Hypothesis run_clock :
  forall v, steady_now (os v) <= steady_now (os (user_run v)).
Variable period : microseconds.
Hypothesis period_positive : 0 < period.

Let H := HiResTimedThread.hooks user_init user_run.

Lemma step_one_period_ahead id (w : Worker (HiResTimedThread U)) c c' :
  HiResTimedThread.unarmed w -> loop_interval_ (fields w) = period ->
  rtc (step H env) (entry id w) c ->
  step H env c c' ->
  one_period_ahead period c -> one_period_ahead period c'.
Proof.
  intros Hu Hi Hr Hs Hinv.
  assert (Hne : period <> 0) by lia.
  pose proof (reachable_armed_inv user_init user_run env env_keeps_timing
                period Hne id w c Hu Hi Hr) as [Hic Harm].
  destruct Hs as [c1 c2 Hs|c1 w' He].
  - unfold Thread.loop_step in Hs. destruct c1 as [p v l].
    cbn [pc obj calls] in *. unfold one_period_ahead in *.
    destruct p; cbn [pc obj calls] in *.
    + pose proof (derived_timing user_init v) as Ht.
      change (init H v) with (HiResTimedThread.derived user_init v) in Hs.
      destruct (HiResTimedThread.derived user_init v) as [[|] v1];
        cbn [negb snd] in Hs, Ht; injection Hs as <-; cbn [pc obj];
        [|intros _ Hx; now destruct Hx].
      destruct (timing_interval _ _ Ht) as [_ [Hf _]].
      destruct Harm as [[Hfirst _] _]. intros Hx. congruence.
    + destruct (stop_flag_ (base v)); cbn [negb] in Hs; injection Hs as <-;
        cbn [pc obj]; intros Hf _; (apply Hinv; [exact Hf|discriminate]).
    + injection Hs as <-. cbn [pc obj]. intros _ _.
      change (pre_run H v) with (HiResTimedThread.pre_run v).
      unfold HiResTimedThread.pre_run. rewrite Hic.
      destruct (Z.eqb_spec period 0) as [|_]; [lia|].
      destruct (first_iteration_ (fields v)) eqn:Hf.
      * simpl. apply time_point_add_le.
      * apply Hinv; [reflexivity|discriminate].
    + set (v1 := run H v) in *.
      assert (Ht : HiResTimedThread.timing v1 = HiResTimedThread.timing v)
        by apply (derived_timing (fun v => (tt, user_run v)) v).
      assert (Hclock : steady_now (os v) <= steady_now (os v1)).
      { unfold v1. simpl. unfold HiResTimedThread.derived. simpl.
        apply (run_clock (set_fields (hires_derived (fields v)) v)). }
      clearbody v1. injection Hs as <-. cbn [pc obj]. intros Hf _.
      destruct (timing_interval _ _ Ht) as [_ [Hf' Hd']].
      rewrite Hd'. rewrite Hf' in Hf.
      specialize (Hinv Hf ltac:(discriminate)). lia.
    + injection Hs as <-. cbn [pc obj]. intros Hf _.
      change (post_run H v) with (HiResTimedThread.post_run v) in *.
      destruct (post_run_keeps_flag v) as [Hf' _]. rewrite Hf' in Hf.
      specialize (Hinv Hf ltac:(discriminate)).
      unfold HiResTimedThread.post_run. rewrite Hic.
      destruct (Z.eqb_spec period 0) as [|_]; [lia|].
      destruct (Z.ltb_spec (steady_now (os v)) (next_deadline_ (fields v)));
        simpl; rewrite ?Hic.
      * pose proof (time_point_add_le (next_deadline_ (fields v))
                      (to_ticks period)). lia.
      * apply time_point_add_le.
    + injection Hs as <-. cbn [pc obj]. intros _ Hx. now destruct Hx.
    + discriminate.
  - unfold one_period_ahead in *. cbn [pc obj calls] in *.
    destruct (timing_interval _ _ (env_keeps_timing _ _ He)) as [_ [Hf' Hd']].
    intros Hf Hp. rewrite Hd'. rewrite Hf' in Hf.
    specialize (Hinv Hf Hp). pose proof (env_clock _ _ He). lia.
Qed.

Lemma reachable_one_period_ahead id (w : Worker (HiResTimedThread U)) c :
  HiResTimedThread.unarmed w -> loop_interval_ (fields w) = period ->
  rtc (step H env) (entry id w) c -> one_period_ahead period c.
Proof.
  intros Hu Hi. revert c. apply rtc_ind_r.
  - unfold one_period_ahead. simpl. destruct Hu as [Hf _]. congruence.
  - intros c c' Hr Hs IH. eapply step_one_period_ahead; eassumption.
Qed.

End PacedClock.

(** X13: in a run of a [HiResTimedThread] with positive period [P] that
    starts unarmed, if the steady clock does not go back (neither under
    the derived class's [run] nor between the steps) then whenever the
    loop is about to call [post_run] the deadline is at most [P] ahead of
    the clock: [post_run] either does not sleep or sleeps until a deadline
    that is less than one period away. *)
Theorem hires_sleep_at_most_one_period {U} (micro_sec : Z)
  (w : Worker (HiResTimedThread U))
  (user_init : Worker U -> bool * Worker U) (user_run : Worker U -> Worker U)
  (env : relation (Worker (HiResTimedThread U))) (id : ThreadId)
  (c : Config (HiResTimedThread U)) :
  int32 micro_sec -> 0 < micro_sec ->
  loop_interval_ (fields w) = make_non_negative_duration micro_sec ->
  HiResTimedThread.unarmed w ->
  keeps_timing env -> clock_monotone env ->
  (forall v, steady_now (os v) <= steady_now (os (user_run v))) ->
  rtc (step (HiResTimedThread.hooks user_init user_run) env) (entry id w) c ->
  pc c = AtPostRun ->
  let d := next_deadline_ (fields (obj c)) in
  let now := steady_now (os (obj c)) in
  d - now <= to_ticks micro_sec /\
  (effects (os (HiResTimedThread.post_run (obj c))) = effects (os (obj c)) \/
   effects (os (HiResTimedThread.post_run (obj c)))
   = effects (os (obj c)) ++ [SleepUntil d] /\ 0 < d - now <= to_ticks micro_sec).
Proof.
  intros _ Hpos Hi Hu Henv Hclock Hrun Hr Hpc d now.
  destruct (make_non_negative_duration_spec micro_sec) as [_ [Hnn _]].
  rewrite Hnn in Hi by lia.
  assert (Hne : micro_sec <> 0) by lia.
  pose proof (reachable_armed_inv user_init user_run env Henv micro_sec Hne
                id w c Hu Hi Hr) as [Hic Harm].
  pose proof (reachable_one_period_ahead user_init user_run env Henv Hclock
                Hrun micro_sec Hpos id w c Hu Hi Hr) as Hahead.
  rewrite Hpc in Harm. destruct Harm as [_ Hf].
  assert (Hd : d - now <= to_ticks micro_sec).
  { unfold one_period_ahead in Hahead. rewrite Hpc in Hahead.
    specialize (Hahead Hf ltac:(discriminate)). unfold d, now. lia. }
  split; [exact Hd|].
  unfold HiResTimedThread.post_run. rewrite Hic.
  destruct (Z.eqb_spec micro_sec 0) as [|_]; [lia|].
  fold d now. destruct (Z.ltb_spec now d); simpl.
  - right. split; [reflexivity|lia].
  - now left.
Qed.

Lemma recording_hires_run_clock (v : Worker RecordingHiResThread) :
  steady_now (os v) <= steady_now (os (RecordingHiResThread.run v)).
Proof.
  unfold RecordingHiResThread.run. simpl.
  destruct (_ <=? _)%nat; [rewrite stop_here_no_wait|]; simpl;
    unfold to_ticks; lia.
Qed.

Lemma hires_sleep_at_most_one_period_witness :
  let w := set_base {| thread_ := Some 7%nat; stop_flag_ := false |}
             (RecordingHiResThread.ctor 5000 2 (mkPlatform 1 0 [])) in
  let c := Thread.loop RecordingHiResThread.hooks 4 (entry 7 w) in
  (pc c = AtPostRun /\ next_deadline_ (fields (obj c)) = 5000000 /\
   steady_now (os (obj c)) = 500000) /\
  next_deadline_ (fields (obj c)) - steady_now (os (obj c)) <= to_ticks 5000.
Proof.
  intros w c. split; [repeat split|].
  refine (proj1 (hires_sleep_at_most_one_period 5000 w Thread.init
                   RecordingHiResThread.run controller 7%nat c
                   _ _ eq_refl _ controller_keeps_timing controller_clock
                   recording_hires_run_clock _ eq_refl)).
  - unfold int32. lia.
  - lia.
  - split; reflexivity.
  - apply loop_reaches.
Defined.

(** X14: what the test observes of a [FailingInitThread]: in every
    configuration of a run, under other threads that leave its members
    alone, [run_called_] is still as constructed (false), and once the
    thread has exited [init_called_] is true and the stop flag was set by
    the loop on its way out. *)
Theorem failing_init_thread_flags (p : Platform) (id : ThreadId)
  (env : relation (Worker FailingInitThread)) (c : Config FailingInitThread) :
  (forall w w', env w w' -> fields w' = fields w) ->
  rtc (step FailingInitThread.hooks env)
      (entry id (set_base {| thread_ := Some id; stop_flag_ := false |}
                   (FailingInitThread.ctor p))) c ->
  run_called_ (fields (obj c)) = false /\
  (pc c = Exited -> init_called_ (fields (obj c)) = true) /\
  (pc c = AtInit \/ pc c = Exited).
Proof.
  intros Hfields. revert c. apply rtc_ind_r.
  - simpl. split; [reflexivity|]. split; [discriminate|now left].
  - intros c c' _ Hs [Hrun [Hinit Hpc]].
    destruct Hs as [c1 c2 Hs|c1 w' He].
    + unfold Thread.loop_step in Hs. destruct c1 as [q v l].
      cbn [pc obj calls] in *. destruct Hpc as [->| ->]; [|discriminate].
      simpl in Hs. injection Hs as <-. simpl.
      split; [exact Hrun|]. split; [reflexivity|now right].
    + cbn [pc obj calls] in *. rewrite (Hfields _ _ He).
      split; [exact Hrun|]. split; [exact Hinit|exact Hpc].
Qed.

Lemma failing_init_thread_flags_witness :
  let c := Thread.loop FailingInitThread.hooks 10
             (entry 7 (set_base {| thread_ := Some 7%nat; stop_flag_ := false |}
                         (FailingInitThread.ctor (mkPlatform 1 0 [])))) in
  (pc c = Exited /\ init_called_ (fields (obj c)) = true) /\
  run_called_ (fields (obj c)) = false.
Proof.
  intros c. split; [split; reflexivity|].
  refine (proj1 (failing_init_thread_flags (mkPlatform 1 0 []) 7%nat
                   controller c controller_fields _)).
  apply loop_reaches.
Defined.
